(** * The deferral queue service of decap (web/deferrals/sqs.go)

    A shallow embedding of [SQSDeferralService]: the [Deferral] record, the
    time ordering [ByTime], the adjacent de-duplication [dedup], and the three
    service methods [Defer], [Resubmit] and [DeferredBuilds] written against
    the [SQS] interface of the source.  The service methods live in a small
    monad that threads the state of the queue client, records every call
    made on the interface together with its answer, and distinguishes a
    normal return from a run-time panic (nil dereference) and from a send
    that blocks on the relay channel. *)

From Stdlib Require Import ZArith Lia Ascii.
From stdpp Require Import base option list sorting strings pretty gmap.

Local Open Scope Z_scope.

(** ** Deferrals *)

(** The [Deferral] struct.  Its declaration is not among the sources of
    sqs.go; the four fields are the ones the composite literals in [Resubmit]
    and [DeferredBuilds] fill in. *)
Record Deferral : Type := mkDeferral {
  ProjectKey : string;
  Branch : string;
  BuildID : string;
  UnixTime : Z
}.

Global Instance Deferral_eq_dec : EqDecision Deferral.
Proof. solve_decision. Defined.

(** Modelled from the spec: the method [Deferral.Key()], declared next to the
    [Deferral] struct outside sqs.go.  The data model gives the derived
    identity as [Key() = ProjectKey + "/" + Branch]. *)
Definition Key (d : Deferral) : string := ProjectKey d +:+ "/" +:+ Branch d.

(** ** Ordering and adjacent de-duplication *)

(** [ByTime.Less]: [s[i].UnixTime < s[j].UnixTime]. *)
Definition Less (x y : Deferral) : bool := bool_decide (UnixTime x < UnixTime y).

(** What [sort.Sort] leaves behind: no element is [Less] than its
    predecessor, that is, time stamps ascend (not strictly). *)
Definition TimeLe (x y : Deferral) : Prop := UnixTime x <= UnixTime y.

Definition TimeLt (x y : Deferral) : Prop := UnixTime x < UnixTime y.

Global Instance TimeLe_dec x y : Decision (TimeLe x y).
Proof. unfold TimeLe. apply _. Defined.

(** [sort.Sort(ByTime(msgs))].  The library routine is not stable and its
    algorithm depends on the Go release, so the service is verified against
    the routine's contract: the slice is rearranged in place into an
    arrangement in which adjacent elements are not out of order. *)
Class TimeSort : Type := {
  sortByTime : list Deferral -> list Deferral;
  sortByTime_perm : forall l, sortByTime l ≡ₚ l;
  sortByTime_sorted : forall l, StronglySorted TimeLe (sortByTime l)
}.

(** The loop of [dedup]: [last] is the key of the last element appended to
    [results]. *)
Fixpoint dedup_loop (last : string) (results a : list Deferral) : list Deferral :=
  match a with
  | [] => results
  | v :: a' =>
      if decide (Key v <> last)
      then dedup_loop (Key v) (results ++ [v]) a'
      else dedup_loop last results a'
  end.

Definition dedup (a : list Deferral) : list Deferral := dedup_loop "" [] a.

(** The same scan without the accumulator, used to reason about [dedup]. *)
Fixpoint dedup_from (last : string) (a : list Deferral) : list Deferral :=
  match a with
  | [] => []
  | v :: a' =>
      if decide (Key v <> last) then v :: dedup_from (Key v) a' else dedup_from last a'
  end.

(** Key of the element kept last, if any. *)
Definition last_key (kept : list Deferral) : option string := Key <$> last kept.

(** No two neighbours carry the same key. *)
Definition no_adjacent_dup (l : list Deferral) : Prop :=
  forall i x y, l !! i = Some x -> l !! S i = Some y -> Key x <> Key y.

(** ** strconv and fmt

    [strconv.ParseInt(s, 10, 64)], [strconv.Atoi] and [fmt.Sprintf("%d", _)]
    belong to the Go library; they are written out here for base 10 and 64
    bits, which is how sqs.go calls them.  A Go string is a sequence of
    bytes, as is a [string] here. *)

Inductive NumErr : Type := ErrSyntax | ErrRange.

Definition maxUint64 : Z := 18446744073709551615.
Definition minInt64 : Z := -9223372036854775808.
Definition maxInt64 : Z := 9223372036854775807.

(** Value of a decimal digit, ['0' <= c && c <= '9']. *)
Definition digitVal (c : ascii) : option Z :=
  let n := Z.of_N (N_of_ascii c) in
  if (48 <=? n) && (n <=? 57) then Some (n - 48) else None.

Definition digitChar (d : Z) : ascii := ascii_of_N (Z.to_N (48 + d)).

(** The digit loop of [ParseUint]: a byte that is no digit is a syntax
    error, and the scan stops with a range error as soon as the value no
    longer fits 64 bits. *)
Fixpoint parseUint_loop (s : string) (n : Z) : NumErr + Z :=
  match s with
  | EmptyString => inr n
  | String c s' =>
      match digitVal c with
      | None => inl ErrSyntax
      | Some d =>
          let n1 := n * 10 + d in
          if maxUint64 <? n1 then inl ErrRange else parseUint_loop s' n1
      end
  end.

Definition ParseUint (s : string) : NumErr + Z :=
  match s with
  | EmptyString => inl ErrSyntax
  | _ => parseUint_loop s 0
  end.

Definition ParseInt (s : string) : NumErr + Z :=
  match s with
  | EmptyString => inl ErrSyntax
  | String c rest =>
      let neg := bool_decide (c = "-"%char) in
      let digits := if bool_decide (c = "+"%char) || neg then rest else s in
      match ParseUint digits with
      | inl e => inl e
      | inr un =>
          let cutoff := 9223372036854775808 in
          if negb neg && (cutoff <=? un) then inl ErrRange
          else if neg && (cutoff <? un) then inl ErrRange
          else inr (if neg then - un else un)
      end
  end.

(** [strconv.Atoi] on a platform whose [int] has 64 bits. *)
Definition Atoi (s : string) : NumErr + Z := ParseInt s.

(** Decimal digits of [u], least significant first, pushed in front of
    [acc]; [fuel] bounds the number of digits. *)
Fixpoint formatBits (fuel : nat) (u : Z) (acc : string) : string :=
  match fuel with
  | O => acc
  | S fuel' =>
      let acc' := String (digitChar (u mod 10)) acc in
      if u <? 10 then acc' else formatBits fuel' (u / 10) acc'
  end.

(** [fmt.Sprintf("%d", i)] for an [int64]; a 64-bit magnitude has at most
    twenty digits. *)
Definition Sprintf_d (i : Z) : string :=
  if i <? 0 then String "-" (formatBits 20 (- i) "") else formatBits 20 i "".

(** ** Errors and log lines

    A Go [error] is kept as a tree: what strconv reports, what an
    implementation of the queue interface reports, and [errors.Wrap] around
    either.  Format strings are kept unevaluated with their arguments. *)

Inductive Arg : Type :=
| AStr (s : string)
| AStrPtr (p : option string)
| AErr (e : error)
| AReceiver
with error : Type :=
| NumError (fn num : string) (kind : NumErr)
| ServiceError (msg : string)
| Wrapped (cause : error) (format : string) (args : list Arg).

(** [errors.Wrap(err, message)]: nil stays nil. *)
Definition errors_Wrap (err : option error) (format : string) (args : list Arg)
  : option error :=
  match err with
  | None => None
  | Some e => Some (Wrapped e format args)
  end.

(** ** The part of the AWS SDK the service touches

    Pointer-valued fields are [option]s; [aws.String] and [aws.Int64] are
    [Some].  A Go map from strings to pointers is a [gmap]: a missing key
    and a nil value both read as nil. *)

Record MessageAttributeValue : Type := mkAttr {
  DataType : option string;
  StringValue : option string
}.

Module SendMessageInput.
Record t : Type := mk {
  QueueUrl : option string;
  MessageDeduplicationId : option string;
  DelaySeconds : option Z;
  MessageAttributes : gmap string MessageAttributeValue
}.
End SendMessageInput.

Module ReceiveMessageInput.
Record t : Type := mk {
  QueueUrl : option string;
  MaxNumberOfMessages : option Z;
  MessageAttributeNames : list (option string);
  VisibilityTimeout : option Z
}.
End ReceiveMessageInput.

Module DeleteMessageInput.
Record t : Type := mk {
  QueueUrl : option string;
  ReceiptHandle : option string
}.
End DeleteMessageInput.

Module GetQueueAttributesInput.
Record t : Type := mk {
  QueueUrl : option string;
  AttributeNames : list (option string)
}.
End GetQueueAttributesInput.

Module CreateQueueInput.
Record t : Type := mk { QueueName : option string }.
End CreateQueueInput.

(** [sqs.Message]: the fields the service reads. *)
Module Message.
Record t : Type := mk {
  MessageAttributes : gmap string MessageAttributeValue;
  ReceiptHandle : option string
}.
End Message.

(** The [SQS] interface.  An implementation carries a state of type [Q]; a
    call answers and moves to a new state.  An answer is either an error or
    an output (the SDK never hands back a nil output without an error, nor a
    nil element in [Messages]); outputs are reduced to the field the service
    reads: [QueueUrl], nothing, [Attributes], [Messages], nothing. *)
Class SQS (Q : Type) : Type := {
  CreateQueue : CreateQueueInput.t -> Q -> (error + option string) * Q;
  DeleteMessage : DeleteMessageInput.t -> Q -> option error * Q;
  GetQueueAttributes :
    GetQueueAttributesInput.t -> Q -> (error + gmap string string) * Q;
  ReceiveMessage : ReceiveMessageInput.t -> Q -> (error + list Message.t) * Q;
  SendMessage : SendMessageInput.t -> Q -> option error * Q
}.

(** ** Runs of the service

    What a method does is observed as the sequence of calls it makes on the
    queue interface, each with its answer, the values it sends on the relay
    channel and the lines it logs. *)

Inductive Event : Type :=
| EvCreateQueue (p : CreateQueueInput.t) (r : error + option string)
| EvDeleteMessage (p : DeleteMessageInput.t) (r : option error)
| EvGetQueueAttributes (p : GetQueueAttributesInput.t) (r : error + gmap string string)
| EvReceiveMessage (p : ReceiveMessageInput.t) (r : error + list Message.t)
| EvSendMessage (p : SendMessageInput.t) (r : option error)
| EvRelay (d : Deferral)
| EvLog (format : string) (args : list Arg).

(** The [SQSDeferralService] struct.  [sqs] is the state of the queue
    client.  [relay] stands for the channel: the number of sends its
    receiving side takes while the method runs; a send beyond that blocks
    for good.  The mutex is not modelled: one method runs at a time. *)
Record SQSDeferralService (Q : Type) : Type := mkService {
  sqs : Q;
  queueURL : string;
  relay : nat
}.
Arguments mkService {Q} _ _ _.
Arguments sqs {Q} _.
Arguments queueURL {Q} _.
Arguments relay {Q} _.

(** How a method ends: it returns, it panics on a nil dereference, or it
    stays blocked in a channel send. *)
Inductive Outcome (A : Type) : Type :=
| Returned (a : A)
| Panicked
| Blocked.
Arguments Returned {A} _.
Arguments Panicked {A}.
Arguments Blocked {A}.

Record Run (Q A : Type) : Type := mkRun {
  outcome : Outcome A;
  after : SQSDeferralService Q;
  events : list Event
}.
Arguments mkRun {Q A} _ _ _.
Arguments outcome {Q A} _.
Arguments after {Q A} _.
Arguments events {Q A} _.

Definition M (Q A : Type) : Type := SQSDeferralService Q -> Run Q A.

Global Instance M_ret {Q} : MRet (M Q) :=
  fun A a s => mkRun (Returned a) s [].

Global Instance M_bind {Q} : MBind (M Q) :=
  fun A B f m s =>
    let r := m s in
    match outcome r with
    | Returned a =>
        let r' := f a (after r) in
        mkRun (outcome r') (after r') (events r ++ events r')
    | Panicked => mkRun Panicked (after r) (events r)
    | Blocked => mkRun Blocked (after r) (events r)
    end.

Definition panic {Q A} : M Q A := fun s => mkRun Panicked s [].

(** [*p]: a nil pointer panics. *)
Definition deref {Q A} (p : option A) : M Q A :=
  match p with
  | Some a => mret a
  | None => panic
  end.

Definition emit {Q} (e : Event) : M Q unit := fun s => mkRun (Returned tt) s [e].

Definition getQueueURL {Q} : M Q string := fun s => mkRun (Returned (queueURL s)) s [].

(** [log.Println] and [log.Printf]. *)
Definition log_Printf {Q} (format : string) (args : list Arg) : M Q unit :=
  emit (EvLog format args).

Definition log_Println {Q} (args : list Arg) : M Q unit :=
  emit (EvLog "%v\n" args).

(** [s.relay <- d]; the channel is taken to be open. *)
Definition send {Q} (d : Deferral) : M Q unit :=
  fun s =>
    match relay s with
    | O => mkRun Blocked s []
    | S room => mkRun (Returned tt) (mkService (sqs s) (queueURL s) room) [EvRelay d]
    end.

(** Events of each kind in a run, in the order they happened. *)
Definition relayed (tr : list Event) : list Deferral :=
  omap (fun e => match e with EvRelay d => Some d | _ => None end) tr.

Definition deleted (tr : list Event) : list DeleteMessageInput.t :=
  omap (fun e => match e with EvDeleteMessage p _ => Some p | _ => None end) tr.

Definition received (tr : list Event) : list ReceiveMessageInput.t :=
  omap (fun e => match e with EvReceiveMessage p _ => Some p | _ => None end) tr.

Definition sent (tr : list Event) : list SendMessageInput.t :=
  omap (fun e => match e with EvSendMessage p _ => Some p | _ => None end) tr.

(** The answers of the successful receive calls of a run. *)
Definition batches (tr : list Event) : list (list Message.t) :=
  omap (fun e => match e with EvReceiveMessage _ (inr ms) => Some ms | _ => None end) tr.

(** The [MessageAttributes] literal of [Defer]. *)
Definition deferAttributes (now : Z) (projectKey branch buildID : string)
  : gmap string MessageAttributeValue :=
  list_to_map
    [ ("projectkey", mkAttr (Some "String") (Some projectKey));
      ("branch", mkAttr (Some "String") (Some branch));
      ("buildid", mkAttr (Some "String") (Some buildID));
      ("unixtime", mkAttr (Some "Number") (Some (Sprintf_d now))) ].

Section Service.
Context {Q : Type} `{!SQS Q} `{!TimeSort}.

Definition call {P R : Type} (op : P -> Q -> R * Q) (ev : P -> R -> Event)
    (p : P) : M Q R :=
  fun s =>
    let '(r, q) := op p (sqs s) in
    mkRun (Returned r) (mkService q (queueURL s) (relay s)) [ev p r].

(** [createQueue]. *)
Definition createQueue (queueName : string) : M Q (string * option error) :=
  resp ← call CreateQueue EvCreateQueue (CreateQueueInput.mk (Some queueName));
  match resp with
  | inl err =>
      mret ("", errors_Wrap (Some err) "%T: Error creating queue: %s"
                  [AErr err; AStr queueName])
  | inr url => u ← deref url; mret (u, None)
  end.

(** [Defer]; [now] is what [time.Now().Unix()] reads. *)
Definition Defer (now : Z) (projectKey branch buildID : string)
    : M Q (option error) :=
  url ← getQueueURL;
  let params :=
    SendMessageInput.mk (Some url) (Some buildID) (Some 1)
      (deferAttributes now projectKey branch buildID) in
  call SendMessage EvSendMessage params.

(** [deleteMessage]. *)
Definition deleteMessage (handle : string) : M Q (option error) :=
  url ← getQueueURL;
  err ← call DeleteMessage EvDeleteMessage
          (DeleteMessageInput.mk (Some url) (Some handle));
  mret (errors_Wrap err "Failed to delete message" []).

(** [*message.MessageAttributes[name].StringValue]. *)
Definition attribute (message : Message.t) (name : string) : M Q string :=
  a ← deref (Message.MessageAttributes message !! name);
  deref (StringValue a).

(** The loop over [resp.Messages], which [Resubmit] and [DeferredBuilds]
    both contain; [msgs] is the slice appended to. *)
Fixpoint readMessages (messages : list Message.t) (msgs : list Deferral)
    : M Q (list Deferral) :=
  match messages with
  | [] => mret msgs
  | message :: rest =>
      t ← attribute message "unixtime";
      match ParseInt t with
      | inl _ =>
          log_Printf "Cannot parse unix time in Deferral:  %s\n" [AStrPtr (Some t)];;
          readMessages rest msgs
      | inr unixtime =>
          projectKey ← attribute message "projectkey";
          branch ← attribute message "branch";
          buildID ← attribute message "buildid";
          let d := mkDeferral projectKey branch buildID unixtime in
          let msgs := msgs ++ [d] in
          handle ← deref (Message.ReceiptHandle message);
          err ← deleteMessage handle;
          match err with
          | Some e => log_Printf "Error deleting message %s: %v\n" [AStr handle; AErr e]
          | None => mret tt
          end;;
          readMessages rest msgs
      end
  end.

(** [for _, d := range msgs { s.relay <- d }]. *)
Fixpoint relayAll (msgs : list Deferral) : M Q unit :=
  match msgs with
  | [] => mret tt
  | d :: rest => send d;; relayAll rest
  end.

Definition receiveParams (url : string) (visibility : option Z)
    : ReceiveMessageInput.t :=
  ReceiveMessageInput.mk (Some url) (Some 10) [Some "All"] visibility.

(** [Resubmit]. *)
Definition Resubmit : M Q unit :=
  url ← getQueueURL;
  resp ← call ReceiveMessage EvReceiveMessage (receiveParams url None);
  match resp with
  | inl err => log_Println [AErr err]
  | inr messages =>
      msgs ← readMessages messages [];
      relayAll (dedup (sortByTime msgs))
  end.

(** [getVisibleMessagesCount]. *)
Definition getVisibleMessagesCount : M Q (Z * option error) :=
  url ← getQueueURL;
  resp ← call GetQueueAttributes EvGetQueueAttributes
           (GetQueueAttributesInput.mk (Some url)
              [Some "ApproximateNumberOfMessages"]);
  match resp with
  | inl err =>
      mret (0, errors_Wrap (Some err)
                 "%T: Error reading available messages count: %v"
                 [AReceiver; AErr err])
  | inr attributes =>
      v ← deref (attributes !! "ApproximateNumberOfMessages");
      match Atoi v with
      | inl kind => mret (0, Some (NumError "Atoi" v kind))
      | inr i => mret (i, None)
      end
  end.

(** The body of [for i := 0; i < reads; i++] in [DeferredBuilds], run
    [reads] times. *)
Fixpoint readBatches (reads : nat) (msgs : list Deferral) : M Q (list Deferral) :=
  match reads with
  | O => mret msgs
  | S reads' =>
      url ← getQueueURL;
      resp ← call ReceiveMessage EvReceiveMessage (receiveParams url (Some 0));
      match resp with
      | inl err => log_Println [AErr err];; readBatches reads' msgs
      | inr messages =>
          msgs ← readMessages messages msgs;
          readBatches reads' (dedup (sortByTime msgs))
      end
  end.

(** Number of iterations of that loop for a count [n]: Go's [/] and [%]
    truncate towards zero. *)
Definition readsFor (n : Z) : Z :=
  let nMaxMessages := 10 in
  let reads := Z.quot n nMaxMessages in
  if 0 <? Z.rem n 10 then reads + 1 else reads.

(** [DeferredBuilds]. *)
Definition DeferredBuilds : M Q (list Deferral * option error) :=
  '(n, err) ← getVisibleMessagesCount;
  match err with
  | Some e =>
      mret ([], errors_Wrap (Some e) "error retrieving number of visible messages" [])
  | None =>
      msgs ← readBatches (Z.to_nat (readsFor n)) [];
      mret (msgs, None)
  end.

End Service.

(** ** Vocabulary of the statements *)

(** [*message.MessageAttributes[name].StringValue] when neither pointer is
    nil. *)
Definition stringAttr (message : Message.t) (name : string) : option string :=
  a ← Message.MessageAttributes message !! name; StringValue a.

(** The message carries a [unixtime] attribute that [ParseInt] rejects. *)
Definition unparsable (message : Message.t) : Prop :=
  exists t kind, stringAttr message "unixtime" = Some t /\ ParseInt t = inl kind.

(** The Deferral and the receipt handle of a message that the loop over
    [resp.Messages] parses; [None] for a message it skips or panics on. *)
Definition parsedMessage (message : Message.t) : option (Deferral * string) :=
  t ← stringAttr message "unixtime";
  match ParseInt t with
  | inl _ => None
  | inr unixtime =>
      projectKey ← stringAttr message "projectkey";
      branch ← stringAttr message "branch";
      buildID ← stringAttr message "buildid";
      handle ← Message.ReceiptHandle message;
      Some (mkDeferral projectKey branch buildID unixtime, handle)
  end.

Definition parsedDeferrals (messages : list Message.t) : list Deferral :=
  (omap parsedMessage messages).*1.

Definition parsedHandles (messages : list Message.t) : list string :=
  (omap parsedMessage messages).*2.

(** The request [deleteMessage] builds for a handle. *)
Definition deleteParams (url handle : string) : DeleteMessageInput.t :=
  DeleteMessageInput.mk (Some url) (Some handle).

(** A run with further events in front of it. *)
Definition prefixed {Q A} (evs : list Event) (r : Run Q A) : Run Q A :=
  mkRun (outcome r) (after r) (evs ++ events r).

(** The line logged when a delete fails. *)
Definition deleteLog (handle : string) (err : option error) : list Event :=
  match errors_Wrap err "Failed to delete message" [] with
  | Some e => [EvLog "Error deleting message %s: %v\n" [AStr handle; AErr e]]
  | None => []
  end.

(** The service with another capacity on its relay channel. *)
Definition withRelay {Q} (room : nat) (s : SQSDeferralService Q) : SQSDeferralService Q :=
  mkService (sqs s) (queueURL s) room.

(** What [Resubmit] does with the messages of a successful receive. *)
Definition relayBatch {Q} `{!SQS Q} `{!TimeSort} (messages : list Message.t) : M Q unit :=
  msgs ← readMessages messages [];
  relayAll (dedup (sortByTime msgs)).

(** [ceil(n/10)] on the integers. *)
Definition ceilDiv10 (n : Z) : Z := - ((- n) / 10).

(** What one pass of [DeferredBuilds]'s loop leaves in [msgs] after a
    successful receive. *)
Definition afterBatch `{!TimeSort} (msgs : list Deferral) (messages : list Message.t)
  : list Deferral :=
  dedup (sortByTime (msgs ++ parsedDeferrals messages)).

(** The list a single sort and de-duplication over everything parsed would
    give. *)
Definition oneFinalPass `{!TimeSort} (bs : list (list Message.t)) : list Deferral :=
  dedup (sortByTime (concat (parsedDeferrals <$> bs))).

(** ** An in-memory queue

    An implementation of the [SQS] interface that keeps its messages in a
    list, in arrival order.  A receive hands out the oldest messages, as
    many as asked for, and leaves them in place; a delete removes the
    message with the given receipt handle.  While [outage] is positive the
    next call fails and [outage] goes down by one. *)
Module MemQueue.

Record t : Type := mk {
  stored : list Message.t;
  issued : nat;
  outage : nat
}.

Definition empty : t := mk [] 0 0.

Definition unavailable : error := ServiceError "RequestError: send request failed".

Definition guarded {R : Type} (fail : error -> R) (op : t -> R * t) (q : t) : R * t :=
  match outage q with
  | S k => (fail unavailable, mk (stored q) (issued q) k)
  | O => op q
  end.

Definition hasHandle (h : option string) (m : Message.t) : bool :=
  bool_decide (Message.ReceiptHandle m = h).

Global Instance sqs : SQS t := {|
  CreateQueue p := guarded inl (fun q => (inr (CreateQueueInput.QueueName p), q));
  DeleteMessage p :=
    guarded Some (fun q =>
      (None,
       mk (List.filter (fun m => negb (hasHandle (DeleteMessageInput.ReceiptHandle p) m))
             (stored q))
          (issued q) 0));
  GetQueueAttributes p :=
    guarded inl (fun q =>
      (inr {[ "ApproximateNumberOfMessages" :=
                Sprintf_d (Z.of_nat (length (stored q))) ]}, q));
  ReceiveMessage p :=
    guarded inl (fun q =>
      (inr (take (Z.to_nat (default 1 (ReceiveMessageInput.MaxNumberOfMessages p)))
              (stored q)), q));
  SendMessage p :=
    guarded Some (fun q =>
      (None,
       mk (stored q ++
             [Message.mk (SendMessageInput.MessageAttributes p)
                (Some (pretty (issued q)))])
          (S (issued q)) 0))
|}.

(** A stored message as [Defer] would have sent it at time [t]. *)
Definition message (projectKey branch buildID t handle : string) : Message.t :=
  Message.mk
    (list_to_map
       [ ("projectkey", mkAttr (Some "String") (Some projectKey));
         ("branch", mkAttr (Some "String") (Some branch));
         ("buildid", mkAttr (Some "String") (Some buildID));
         ("unixtime", mkAttr (Some "Number") (Some t)) ])
    (Some handle).

Definition holding (ms : list Message.t) : t := mk ms (length ms) 0.

End MemQueue.

(** A sorting routine that meets the contract of [sort.Sort], for running
    the service on concrete inputs. *)
Definition mergeSortByTime (l : list Deferral) : list Deferral := merge_sort TimeLe l.

(** ** Sample data *)

Definition sample_a1 : Deferral := mkDeferral "a" "master" "build-1" 1.
Definition sample_a2 : Deferral := mkDeferral "a" "master" "build-2" 2.
Definition sample_b3 : Deferral := mkDeferral "b" "master" "build-3" 3.
Definition sample_a5 : Deferral := mkDeferral "a" "master" "build-5" 5.
Definition sample_b2 : Deferral := mkDeferral "b" "master" "build-2" 2.
Definition sample_a3 : Deferral := mkDeferral "a" "master" "build-3" 3.

Definition message_a5 : Message.t := MemQueue.message "a" "master" "build-5" "5" "h5".
Definition message_b3 : Message.t := MemQueue.message "b" "master" "build-3" "3" "h3".

(** A message whose time stamp is no number. *)
Definition garbled : Message.t := MemQueue.message "c" "master" "build-x" "12x" "hx".

(** Eleven stored messages: ten for a/master and then one for b/master,
    stamped between the first two. *)
Definition backlog : list Message.t :=
  [ MemQueue.message "a" "master" "build-1" "1" "h1";
    MemQueue.message "a" "master" "build-3" "3" "h3";
    MemQueue.message "a" "master" "build-4" "4" "h4";
    MemQueue.message "a" "master" "build-5" "5" "h5";
    MemQueue.message "a" "master" "build-6" "6" "h6";
    MemQueue.message "a" "master" "build-7" "7" "h7";
    MemQueue.message "a" "master" "build-8" "8" "h8";
    MemQueue.message "a" "master" "build-9" "9" "h9";
    MemQueue.message "a" "master" "build-10" "10" "h10";
    MemQueue.message "a" "master" "build-11" "11" "h11";
    MemQueue.message "b" "master" "build-2" "2" "h2" ].

(** A service on an empty queue, whose relay channel takes one value. *)
Definition freshService : SQSDeferralService MemQueue.t :=
  mkService MemQueue.empty "q" 1.

(** A service whose queue fails the next call and works again after it. *)
Definition flakyService : SQSDeferralService MemQueue.t :=
  mkService (MemQueue.mk [] 0 1) "q" 1.

Definition backlogService : SQSDeferralService MemQueue.t :=
  mkService (MemQueue.holding backlog) "q" 0.

Definition mixedService : SQSDeferralService MemQueue.t :=
  mkService (MemQueue.holding [message_a5; garbled; message_b3]) "q" 5.

(** ** Further vocabulary *)

(** A message the loop over [resp.Messages] gets through without a nil
    dereference: its time stamp does not parse, or it parses and the
    three other attributes and the receipt handle are there. *)
Definition readable (message : Message.t) : Prop :=
  unparsable message \/ is_Some (parsedMessage message).

(** A message on which the loop panics: the [unixtime] attribute or its
    value is missing, or the time stamp parses and one of [projectkey],
    [branch], [buildid] or the receipt handle is missing. *)
Definition breaking (message : Message.t) : Prop :=
  stringAttr message "unixtime" = None \/
  exists t unixtime,
    stringAttr message "unixtime" = Some t /\ ParseInt t = inr unixtime /\
    parsedMessage message = None.

(** The [QueueUrl] of the request an event records, for the calls that
    carry one. *)
Definition requestURL (e : Event) : option (option string) :=
  match e with
  | EvDeleteMessage p _ => Some (DeleteMessageInput.QueueUrl p)
  | EvGetQueueAttributes p _ => Some (GetQueueAttributesInput.QueueUrl p)
  | EvReceiveMessage p _ => Some (ReceiveMessageInput.QueueUrl p)
  | EvSendMessage p _ => Some (SendMessageInput.QueueUrl p)
  | EvCreateQueue _ _ | EvRelay _ | EvLog _ _ => None
  end.

(** The calls on the queue interface in a run, by method. *)
Inductive Call : Type :=
| CallCreateQueue | CallDeleteMessage | CallGetQueueAttributes
| CallReceiveMessage | CallSendMessage.

Definition calls (tr : list Event) : list Call :=
  omap (fun e =>
          match e with
          | EvCreateQueue _ _ => Some CallCreateQueue
          | EvDeleteMessage _ _ => Some CallDeleteMessage
          | EvGetQueueAttributes _ _ => Some CallGetQueueAttributes
          | EvReceiveMessage _ _ => Some CallReceiveMessage
          | EvSendMessage _ _ => Some CallSendMessage
          | EvRelay _ | EvLog _ _ => None
          end) tr.

(** The event goes to the queue at [url] if it is a request that names a
    queue at all. *)
Definition toQueue (url : string) (e : Event) : Prop :=
  forall u, requestURL e = Some u -> u = Some url.

(** The error [NewSQSDeferralService] returns when the queue cannot be
    created: [errors.Wrap(err, fmt.Sprintf("error creating
    NewSQSDeferralService(%s, %+v, %v)", queueName, s, r))], where [s] and
    [r] are the client and the channel the constructor was given. *)
Inductive NewServiceError : Type :=
| ErrCreating (cause : error) (queueName : string).

(** [NewSQSDeferralService].  The run ends in the service struct the
    constructor has built; when an error is returned the caller gets no
    service, and the struct only shows what became of the client. *)
Definition NewSQSDeferralService {Q} `{!SQS Q} (queueName : string) (s : Q) (r : nat)
  : Run Q (option NewServiceError) :=
  let deferralService := mkService s "" r in
  let created := createQueue queueName deferralService in
  match outcome created with
  | Returned (q, None) =>
      mkRun (Returned None)
        (mkService (sqs (after created)) q (relay (after created)))
        (events created)
  | Returned (_, Some err) =>
      mkRun (Returned (Some (ErrCreating err queueName))) (after created) (events created)
  | Panicked => mkRun Panicked (after created) (events created)
  | Blocked => mkRun Blocked (after created) (events created)
  end.

(** ** strconv, with the values returned beside an error

    [GetBuildsByProject] goes on with the value [strconv] returns when the
    error is not nil, so the value matters there: zero after a syntax error,
    the nearest bound after a range error. *)

(** The digit loop of [ParseUint] for base 10; [maxVal] is
    [1<<bitSize - 1]. *)
Fixpoint parseUintBits_loop (maxVal : Z) (s : string) (n : Z) : Z * option NumErr :=
  match s with
  | EmptyString => (n, None)
  | String c s' =>
      match digitVal c with
      | None => (0, Some ErrSyntax)
      | Some d =>
          let n1 := n * 10 + d in
          if maxVal <? n1 then (maxVal, Some ErrRange)
          else parseUintBits_loop maxVal s' n1
      end
  end.

(** [strconv.ParseUint(s, 10, bitSize)]. *)
Definition strconv_ParseUint (s : string) (bitSize : Z) : Z * option NumErr :=
  match s with
  | EmptyString => (0, Some ErrSyntax)
  | _ => parseUintBits_loop (2 ^ bitSize - 1) s 0
  end.

(** [strconv.ParseInt(s, 10, bitSize)]. *)
Definition strconv_ParseInt (s : string) (bitSize : Z) : Z * option NumErr :=
  match s with
  | EmptyString => (0, Some ErrSyntax)
  | String c rest =>
      let neg := bool_decide (c = "-"%char) in
      let digits := if bool_decide (c = "+"%char) || neg then rest else s in
      match strconv_ParseUint digits bitSize with
      | (_, Some ErrSyntax) => (0, Some ErrSyntax)
      | (un, _) =>
          let cutoff := 2 ^ (bitSize - 1) in
          if negb neg && (cutoff <=? un) then (cutoff - 1, Some ErrRange)
          else if neg && (cutoff <? un) then (- cutoff, Some ErrRange)
          else (if neg then - un else un, None)
      end
  end.

(** ** The storage service of [package main]

    [AWSStorageService.GetBuildsByProject] with the types of apiv1types.go.
    The DynamoDB client is an interface with a state of its own, as the
    queue client is. *)

Module Project.
Record t : Type := mk { Key : string }.
End Project.

Module Build.
Record t : Type := mk {
  ID : string;
  Branch : string;
  Result : Z;
  Duration : Z;
  UnixTime : Z
}.
End Build.

(** [dynamodb.AttributeValue]: the string and the number member. *)
Module AttributeValue.
Record t : Type := mk {
  S : option string;
  N : option string
}.
End AttributeValue.

Module QueryInput.
Record t : Type := mk {
  TableName : option string;
  IndexName : option string;
  KeyConditionExpression : option string;
  ExpressionAttributeValues : gmap string AttributeValue.t
}.
End QueryInput.

(** The errors of the SDK, as far as the type assertions of the service
    tell them apart: an [awserr.RequestFailure], which is an [awserr.Error]
    too, a plain [awserr.Error], and any other error.  The original error
    inside an [awserr.Error] is only ever printed and is kept as its text. *)
Inductive awserror : Type :=
| RequestFailure (code message : string) (origErr : option string)
    (statusCode : Z) (requestID : string)
| AwsError (code message : string) (origErr : option string)
| PlainError (text : string).

Inductive LogArg : Type :=
| LStr (s : string)
| LInt (n : Z)
| LOrigErr (e : option string)
| LErrorText (e : awserror)
| LNumError (fn num : string) (kind : NumErr).

Inductive StorageEvent : Type :=
| SEvQuery (p : QueryInput.t) (r : awserror + list (gmap string AttributeValue.t))
| SEvPrintln (args : list LogArg)
| SEvPrintf (format : string) (args : list LogArg).

(** [dynamodb.New(c.Config).Query]: an error or the [Items] of the
    output. *)
Class DynamoDB (D : Type) : Type := {
  Query : QueryInput.t -> D -> (awserror + list (gmap string AttributeValue.t)) * D
}.

(** Code that logs and may panic. *)
Definition W (A : Type) : Type := Outcome A * list StorageEvent.

Global Instance W_ret : MRet W := fun A a => (Returned a, []).

Global Instance W_bind : MBind W :=
  fun A B f m =>
    match m.1 with
    | Returned a => ((f a).1, m.2 ++ (f a).2)
    | Panicked => (Panicked, m.2)
    | Blocked => (Blocked, m.2)
    end.

Definition derefW {A} (p : option A) : W A :=
  match p with
  | Some a => mret a
  | None => (Panicked, [])
  end.

Definition Log_Printf (format : string) (args : list LogArg) : W unit :=
  (Returned tt, [SEvPrintf format args]).

(** [if err != nil { Log.Printf(format, err) }] after a conversion. *)
Definition logConversion (format fn num : string) (err : option NumErr) : W unit :=
  match err with
  | Some kind => Log_Printf format [LNumError fn num kind]
  | None => mret tt
  end.

(** [*v[name].N] and [*v[name].S]. *)
Definition numberOf (v : gmap string AttributeValue.t) (name : string) : W string :=
  a ← derefW (v !! name); derefW (AttributeValue.N a).

Definition stringOf (v : gmap string AttributeValue.t) (name : string) : W string :=
  a ← derefW (v !! name); derefW (AttributeValue.S a).

(** The loop over [resp.Items]; [builds] is the slice appended to. *)
Fixpoint convertItems (items : list (gmap string AttributeValue.t))
    (builds : list Build.t) : W (list Build.t) :=
  match items with
  | [] => mret builds
  | v :: rest =>
      elapsed ← numberOf v "buildElapsedTime";
      let buildElapsedTime := strconv_ParseUint elapsed 64 in
      logConversion "Error converting buildElapsedTime to ordinal value: %v\n"
        "ParseUint" elapsed buildElapsedTime.2;;
      result ← numberOf v "buildResult";
      let buildResult := strconv_ParseInt result 32 in
      logConversion "Error converting buildResult to ordinal value: %v\n"
        "ParseInt" result buildResult.2;;
      time ← numberOf v "buildTime";
      let buildTime := strconv_ParseUint time 64 in
      logConversion "Error converting buildTime to ordinal value: %v\n"
        "ParseUint" time buildTime.2;;
      buildID ← stringOf v "buildID";
      branch ← stringOf v "branch";
      let build :=
        Build.mk buildID branch buildResult.1 buildElapsedTime.1 buildTime.1 in
      convertItems rest (builds ++ [build])
  end.

(** The lines logged for a failed query. *)
Definition logQueryError (err : awserror) : list StorageEvent :=
  match err with
  | RequestFailure code message origErr statusCode requestID =>
      [ SEvPrintln [LStr code; LStr message; LOrigErr origErr];
        SEvPrintln [LStr code; LStr message; LInt statusCode; LStr requestID] ]
  | AwsError code message origErr =>
      [ SEvPrintln [LStr code; LStr message; LOrigErr origErr] ]
  | PlainError _ => [ SEvPrintln [LErrorText err] ]
  end.

(** The [dynamodb.QueryInput] literal of [GetBuildsByProject]. *)
Definition buildsQuery (project : Project.t) : QueryInput.t :=
  QueryInput.mk (Some "decap-build-metadata") (Some "projectKey-buildTime-index")
    (Some "projectKey = :pkey")
    {[ ":pkey" := AttributeValue.mk (Some (Project.Key project)) None ]}.

(** [GetBuildsByProject]: the builds and the error returned, what was
    logged, and the state the client is left in. *)
Definition GetBuildsByProject {D} `{!DynamoDB D} (project : Project.t)
    (since limit : Z) (d : D) : W (list Build.t * option awserror) * D :=
  let params := buildsQuery project in
  let answer := Query params d in
  (match answer.1 with
   | inl err => (Returned ([], Some err), SEvQuery params answer.1 :: logQueryError err)
   | inr items =>
       let converted := convertItems items [] in
       (match converted.1 with
        | Returned builds => Returned (builds, None)
        | Panicked => Panicked
        | Blocked => Blocked
        end,
        SEvQuery params answer.1 :: converted.2)
   end,
   answer.2).

(** What the loop makes of an item with all its attributes. *)
Definition itemNumber (v : gmap string AttributeValue.t) (name : string) : option string :=
  a ← v !! name; AttributeValue.N a.

Definition itemString (v : gmap string AttributeValue.t) (name : string) : option string :=
  a ← v !! name; AttributeValue.S a.

Definition buildOf (v : gmap string AttributeValue.t) : option Build.t :=
  elapsed ← itemNumber v "buildElapsedTime";
  result ← itemNumber v "buildResult";
  time ← itemNumber v "buildTime";
  buildID ← itemString v "buildID";
  branch ← itemString v "branch";
  Some (Build.mk buildID branch (strconv_ParseInt result 32).1
          (strconv_ParseUint elapsed 64).1 (strconv_ParseUint time 64).1).

(** Number of numeric attributes of an item that do not convert. *)
Definition badNumbers (v : gmap string AttributeValue.t) : nat :=
  length (filter (fun e : option NumErr => is_Some e)
            [ (strconv_ParseUint (default "" (itemNumber v "buildElapsedTime")) 64).2;
              (strconv_ParseInt (default "" (itemNumber v "buildResult")) 32).2;
              (strconv_ParseUint (default "" (itemNumber v "buildTime")) 64).2 ]).

(** The lines logged for the conversions of an item. *)
Definition itemLogs (v : gmap string AttributeValue.t) : list StorageEvent :=
  let elapsed := default "" (itemNumber v "buildElapsedTime") in
  let result := default "" (itemNumber v "buildResult") in
  let time := default "" (itemNumber v "buildTime") in
  (logConversion "Error converting buildElapsedTime to ordinal value: %v\n"
     "ParseUint" elapsed (strconv_ParseUint elapsed 64).2).2 ++
  (logConversion "Error converting buildResult to ordinal value: %v\n"
     "ParseInt" result (strconv_ParseInt result 32).2).2 ++
  (logConversion "Error converting buildTime to ordinal value: %v\n"
     "ParseUint" time (strconv_ParseUint time 64).2).2.

(** The [Log.Printf] lines of a run. *)
Definition printfs (tr : list StorageEvent) : list (string * list LogArg) :=
  omap (fun e => match e with SEvPrintf format args => Some (format, args) | _ => None end) tr.

(** ** A queue that refuses deletes

    An implementation of the [SQS] interface for a reader without the right
    to delete: messages are kept in arrival order and every delete fails. *)
Module ReadOnlyQueue.

Record t : Type := mk { held : list Message.t }.

Definition denied : error := ServiceError "AccessDenied: sqs:DeleteMessage".

Global Instance sqs : SQS t := {|
  CreateQueue p q := (inr (CreateQueueInput.QueueName p), q);
  DeleteMessage p q := (Some denied, q);
  GetQueueAttributes p q :=
    (inr {[ "ApproximateNumberOfMessages" := Sprintf_d (Z.of_nat (length (held q))) ]}, q);
  ReceiveMessage p q :=
    (inr (take (Z.to_nat (default 1 (ReceiveMessageInput.MaxNumberOfMessages p)))
            (held q)), q);
  SendMessage p q :=
    (None,
     mk (held q ++
           [Message.mk (SendMessageInput.MessageAttributes p)
              (Some (pretty (length (held q))))]))
|}.

End ReadOnlyQueue.

(** ** An in-memory table

    An implementation of the [DynamoDB] interface that answers every query
    with all its rows, or with an error when it is set to fail. *)
Module MemTable.

Record t : Type := mk {
  rows : list (gmap string AttributeValue.t);
  failing : option awserror
}.

Global Instance dynamodb : DynamoDB t := {|
  Query p d :=
    match failing d with
    | Some err => (inl err, d)
    | None => (inr (rows d), d)
    end
|}.

Definition row (buildID branch elapsed result time : string)
  : gmap string AttributeValue.t :=
  list_to_map
    [ ("buildID", AttributeValue.mk (Some buildID) None);
      ("branch", AttributeValue.mk (Some branch) None);
      ("buildElapsedTime", AttributeValue.mk None (Some elapsed));
      ("buildResult", AttributeValue.mk None (Some result));
      ("buildTime", AttributeValue.mk None (Some time)) ].

End MemTable.

(** ** More sample data *)

(** A message without any attribute. *)
Definition bare : Message.t := Message.mk ∅ (Some "h0").

Definition brokenService : SQSDeferralService MemQueue.t :=
  mkService (MemQueue.holding [message_a5; bare; message_b3]) "q" 5.

Definition readOnlyService : SQSDeferralService ReadOnlyQueue.t :=
  mkService (ReadOnlyQueue.mk [message_a5]) "q" 5.

(** Two rows: one as a build writes it, one whose numbers are a word, a
    number beyond 32 bits and a negative number. *)
Definition sampleTable : MemTable.t :=
  MemTable.mk
    [ MemTable.row "build-1" "master" "12" "0" "1700000000";
      MemTable.row "build-2" "develop" "soon" "99999999999" "-5" ]
    None.

(** * Properties *)

(** ** Keys and the de-duplication scan *)

Lemma append_slash_nonempty (p b : string) : p +:+ "/" +:+ b <> "".
Proof. destruct p; discriminate. Qed.

Lemma Key_nonempty (d : Deferral) : Key d <> "".
Proof. apply append_slash_nonempty. Qed.

Lemma dedup_loop_from (a : list Deferral) :
  forall last results, dedup_loop last results a = results ++ dedup_from last a.
Proof.
  induction a as [|v a IH]; intros last results; simpl.
  - by rewrite app_nil_r.
  - destruct (decide (Key v <> last)); rewrite IH; [|done].
    by rewrite <- app_assoc.
Qed.

Lemma dedup_eq (a : list Deferral) : dedup a = dedup_from "" a.
Proof. unfold dedup. by rewrite dedup_loop_from. Qed.

Lemma dedup_from_sublist (a : list Deferral) :
  forall last, dedup_from last a `sublist_of` a.
Proof.
  induction a as [|v a IH]; intros last; simpl; [constructor|].
  destruct (decide (Key v <> last)).
  - apply sublist_skip, IH.
  - apply sublist_cons, IH.
Qed.

Lemma dedup_from_head (a : list Deferral) :
  forall last x, head (dedup_from last a) = Some x -> Key x <> last.
Proof.
  induction a as [|v a IH]; intros last x; simpl; [done|].
  destruct (decide (Key v <> last)); simpl.
  - by intros [= <-].
  - apply IH.
Qed.

Lemma no_adjacent_dup_cons (x : Deferral) (l : list Deferral) :
  no_adjacent_dup (x :: l) <->
  (forall y, head l = Some y -> Key x <> Key y) /\ no_adjacent_dup l.
Proof.
  unfold no_adjacent_dup. split.
  - intros H. split.
    + intros y Hy. apply (H 0%nat x y); [done|]. by destruct l; simplify_eq/=.
    + intros i a b Ha Hb. by apply (H (S i) a b).
  - intros [Hhd Htl] [|i] a b Ha Hb; simplify_eq/=.
    + apply Hhd. by destruct l; simplify_eq/=.
    + by apply (Htl i a b).
Qed.

Lemma no_adjacent_dup_nil : no_adjacent_dup [].
Proof. by intros i x y ?. Qed.

Lemma dedup_from_no_adjacent_dup (a : list Deferral) :
  forall last, no_adjacent_dup (dedup_from last a).
Proof.
  induction a as [|v a IH]; intros last; simpl; [apply no_adjacent_dup_nil|].
  destruct (decide (Key v <> last)); [|apply IH].
  apply no_adjacent_dup_cons. split; [|apply IH].
  intros y Hy. apply dedup_from_head in Hy. congruence.
Qed.

(** A list whose neighbours differ, and whose head differs from [last], is
    left as it is. *)
Lemma dedup_from_fixed (l : list Deferral) :
  forall last,
    (forall x, head l = Some x -> Key x <> last) ->
    no_adjacent_dup l ->
    dedup_from last l = l.
Proof.
  induction l as [|v l IH]; intros last Hhd Hadj; simpl; [done|].
  apply no_adjacent_dup_cons in Hadj as [Hv Hl].
  rewrite decide_True by (by apply Hhd).
  f_equal. apply IH; [|done].
  intros x Hx. apply Hv in Hx. congruence.
Qed.

Lemma last_key_cons_default (x : Deferral) (l : list Deferral) (k : string) :
  default k (last_key (x :: l)) = default (Key x) (last_key l).
Proof.
  unfold last_key. rewrite last_cons. by destruct (last l).
Qed.

(** The scan, one element further: the element is compared with the key
    held in [last] at that point, which is the key of the element kept
    last, or the initial value when nothing has been kept. *)
Lemma dedup_from_snoc (xs : list Deferral) (v : Deferral) :
  forall last,
    dedup_from last (xs ++ [v]) =
    if decide (Key v <> default last (last_key (dedup_from last xs)))
    then dedup_from last xs ++ [v]
    else dedup_from last xs.
Proof.
  induction xs as [|x xs IH]; intros last; simpl.
  - by destruct (decide (Key v <> last)).
  - destruct (decide (Key x <> last)); [|apply IH].
    rewrite IH, last_key_cons_default.
    by destruct (decide (Key v <> _)).
Qed.

(** ** Sorting by time *)

Global Instance TimeLe_trans : Transitive TimeLe.
Proof. intros x y z. unfold TimeLe. lia. Qed.

Global Instance TimeLe_total : Total TimeLe.
Proof. intros x y. unfold TimeLe. lia. Qed.

Global Instance TimeLt_antisymm : AntiSymm (=) TimeLt.
Proof. intros x y. unfold TimeLt. lia. Qed.

Lemma StronglySorted_TimeLt (l : list Deferral) :
  StronglySorted TimeLe l -> NoDup (UnixTime <$> l) -> StronglySorted TimeLt l.
Proof.
  induction 1 as [|x l Hl IH Hx]; intros Hnd; [constructor|].
  rewrite fmap_cons in Hnd. apply NoDup_cons in Hnd as [Hnotin Hnd].
  constructor; [by apply IH|].
  rewrite Forall_forall in Hx |- *. intros y Hy.
  specialize (Hx y Hy). unfold TimeLe, TimeLt in *.
  assert (UnixTime x <> UnixTime y); [|lia].
  intros Heq. apply Hnotin. rewrite Heq. by apply list_elem_of_fmap_2.
Qed.

(** Two arrangements by ascending time of the same Deferrals coincide when
    the time stamps are pairwise different. *)
Lemma sorted_by_time_unique (l l1 l2 : list Deferral) :
  NoDup (UnixTime <$> l) ->
  l1 ≡ₚ l -> l2 ≡ₚ l ->
  StronglySorted TimeLe l1 -> StronglySorted TimeLe l2 ->
  l1 = l2.
Proof.
  intros Hnd H1 H2 S1 S2.
  apply (StronglySorted_unique TimeLt).
  - apply StronglySorted_TimeLt; [done|]. by rewrite H1.
  - apply StronglySorted_TimeLt; [done|]. by rewrite H2.
  - by rewrite H1, H2.
Qed.

(** The order [sort.Sort] establishes: no element is [Less] than one
    before it. *)
Lemma TimeLe_not_Less (x y : Deferral) : TimeLe x y <-> Less y x = false.
Proof.
  unfold TimeLe, Less. rewrite bool_decide_eq_false. lia.
Qed.

Lemma mergeSortByTime_perm (l : list Deferral) : mergeSortByTime l ≡ₚ l.
Proof. apply merge_sort_Permutation. Qed.

Lemma mergeSortByTime_sorted (l : list Deferral) :
  StronglySorted TimeLe (mergeSortByTime l).
Proof. apply StronglySorted_merge_sort; apply _. Qed.

Global Instance mergeTimeSort : TimeSort := {|
  sortByTime := mergeSortByTime;
  sortByTime_perm := mergeSortByTime_perm;
  sortByTime_sorted := mergeSortByTime_sorted
|}.

Lemma sortByTime_distinct (TS : TimeSort) (l : list Deferral) :
  NoDup (UnixTime <$> l) -> @sortByTime TS l = mergeSortByTime l.
Proof.
  intros Hnd. apply (sorted_by_time_unique l); try done.
  - apply sortByTime_perm.
  - apply mergeSortByTime_perm.
  - apply sortByTime_sorted.
  - apply mergeSortByTime_sorted.
Qed.

Lemma StronglySorted_sublist (l1 l2 : list Deferral) :
  l1 `sublist_of` l2 -> StronglySorted TimeLe l2 -> StronglySorted TimeLe l1.
Proof.
  induction 1 as [|x l1 l2 Hsub IH|x l1 l2 Hsub IH]; intros Hs; [done| |].
  - apply StronglySorted_inv in Hs as [Hs Hx]. constructor; [by apply IH|].
    rewrite Forall_forall in Hx |- *. intros y Hy.
    apply Hx. by apply (sublist_subseteq _ _ Hsub).
  - apply StronglySorted_inv in Hs as [Hs _]. by apply IH.
Qed.

Lemma dedup_sorted (l : list Deferral) :
  StronglySorted TimeLe l -> StronglySorted TimeLe (dedup l).
Proof. rewrite dedup_eq. apply StronglySorted_sublist, dedup_from_sublist. Qed.

(** ** The de-duplication pass *)

(** C1.  [dedup] is a single left-to-right scan that keeps an element exactly
    when its key differs from the key of the element kept last before it (the
    first element scanned is always kept, no key being empty); hence its
    output never has two neighbours with the same key, for every input and
    in particular for a list sorted by time.  Equal keys that are not
    neighbours survive: the three Deferrals (a,5), (a,1), (b,3) sort to
    (a,1), (b,3), (a,5), which [dedup] returns unchanged, while (a,1), (a,2)
    is cut down to (a,1). *)
Theorem dedup_adjacent_only :
  (dedup [] = []) /\
  (forall xs v,
     dedup (xs ++ [v]) =
     if decide (last_key (dedup xs) = Some (Key v))
     then dedup xs
     else dedup xs ++ [v]) /\
  (forall xs, no_adjacent_dup (dedup xs)) /\
  (forall TS : TimeSort,
     @sortByTime TS [sample_a5; sample_a1; sample_b3] = [sample_a1; sample_b3; sample_a5] /\
     dedup [sample_a1; sample_b3; sample_a5] = [sample_a1; sample_b3; sample_a5] /\
     @sortByTime TS [sample_a1; sample_a2] = [sample_a1; sample_a2] /\
     dedup [sample_a1; sample_a2] = [sample_a1]).
Proof.
  split; [done|]. split; [|split].
  - intros xs v. rewrite !dedup_eq, dedup_from_snoc.
    destruct (last_key (dedup_from "" xs)) as [k|] eqn:E; simpl.
    + destruct (decide (Key v <> k)) as [Hne|Heq].
      * rewrite decide_False; [done|]. by intros [= ->].
      * apply dec_stable in Heq. by rewrite decide_True by (by rewrite Heq).
    + by rewrite decide_True by apply Key_nonempty.
  - intros xs. rewrite dedup_eq. apply dedup_from_no_adjacent_dup.
  - intros TS. split; [|split; [|split]].
    + rewrite sortByTime_distinct; [by vm_compute|].
      apply (bool_decide_unpack _). by vm_compute.
    + by vm_compute.
    + rewrite sortByTime_distinct; [by vm_compute|].
      apply (bool_decide_unpack _). by vm_compute.
    + by vm_compute.
Qed.

(** C9.  [dedup] is idempotent, and what it returns is a subsequence of its
    argument: elements are only dropped, never reordered. *)
Theorem dedup_idempotent_sublist (xs : list Deferral) :
  dedup (dedup xs) = dedup xs /\ dedup xs `sublist_of` xs.
Proof.
  rewrite !dedup_eq. split; [|apply dedup_from_sublist].
  apply dedup_from_fixed.
  - apply dedup_from_head.
  - apply dedup_from_no_adjacent_dup.
Qed.

(** ** Runs of the service methods *)

Section RunLemmas.
Context {Q : Type} `{!SQS Q} `{!TimeSort}.

Lemma bind_eq {A B} (m : M Q A) (f : A -> M Q B) (s : SQSDeferralService Q) :
  (m ≫= f) s =
  match outcome (m s) with
  | Returned a => prefixed (events (m s)) (f a (after (m s)))
  | Panicked => mkRun Panicked (after (m s)) (events (m s))
  | Blocked => mkRun Blocked (after (m s)) (events (m s))
  end.
Proof. reflexivity. Qed.

Lemma ret_eq {A} (a : A) (s : SQSDeferralService Q) :
  (mret a : M Q A) s = mkRun (Returned a) s [].
Proof. reflexivity. Qed.

Lemma prefixed_nil {A} (r : Run Q A) : prefixed [] r = r.
Proof. by destruct r. Qed.

Lemma prefixed_prefixed {A} (e1 e2 : list Event) (r : Run Q A) :
  prefixed e1 (prefixed e2 r) = prefixed (e1 ++ e2) r.
Proof. unfold prefixed. simpl. by rewrite app_assoc. Qed.

Lemma attribute_run (m : Message.t) (name : string) (s : SQSDeferralService Q) :
  attribute m name s =
  match stringAttr m name with
  | Some v => mkRun (Returned v) s []
  | None => mkRun Panicked s []
  end.
Proof.
  unfold attribute, stringAttr. rewrite bind_eq.
  destruct (Message.MessageAttributes m !! name) as [a|]; simpl; [|done].
  by destruct (StringValue a).
Qed.

Lemma call_run {P R} (op : P -> Q -> R * Q) (ev : P -> R -> Event) (p : P)
    (s : SQSDeferralService Q) :
  call op ev p s =
  mkRun (Returned (op p (sqs s)).1)
    (mkService (op p (sqs s)).2 (queueURL s) (relay s))
    [ev p (op p (sqs s)).1].
Proof. unfold call. by destruct (op p (sqs s)). Qed.

Lemma deleteMessage_run (h : string) (s : SQSDeferralService Q) :
  deleteMessage h s =
  let r := DeleteMessage (deleteParams (queueURL s) h) (sqs s) in
  mkRun (Returned (errors_Wrap r.1 "Failed to delete message" []))
    (mkService r.2 (queueURL s) (relay s))
    [EvDeleteMessage (deleteParams (queueURL s) h) r.1].
Proof.
  unfold deleteMessage. rewrite bind_eq. cbn [getQueueURL outcome after events].
  rewrite bind_eq, call_run. cbn [outcome after events prefixed].
  by rewrite ret_eq.
Qed.

(** One turn of the loop over [resp.Messages]. *)
Lemma readMessages_cons m rest msgs s :
readMessages (m :: rest) msgs s =
match stringAttr m "unixtime" with
| None => mkRun Panicked s []
| Some t =>
  match ParseInt t with
  | inl _ => prefixed [EvLog "Cannot parse unix time in Deferral:  %s\n" [AStrPtr (Some t)]] (readMessages rest msgs s)
  | inr u =>
    match parsedMessage m with
    | None => mkRun Panicked s []
    | Some (d, h) =>
       let r := DeleteMessage (deleteParams (queueURL s) h) (sqs s) in
       prefixed ([EvDeleteMessage (deleteParams (queueURL s) h) r.1] ++ deleteLog h r.1)
                (readMessages rest (msgs ++ [d]) (mkService r.2 (queueURL s) (relay s)))
    end
  end
end.
Proof.
  cbn [readMessages]. rewrite bind_eq, attribute_run. unfold parsedMessage.
  destruct (stringAttr m "unixtime") as [t|]; cbn [outcome after events mbind option_bind]; [|done].
  destruct (ParseInt t) as [k|u].
  { by rewrite bind_eq. }
  rewrite bind_eq, attribute_run.
  destruct (stringAttr m "projectkey") as [pk|]; cbn [outcome after events mbind option_bind]; [|done].
  rewrite bind_eq, attribute_run.
  destruct (stringAttr m "branch") as [br|]; cbn [outcome after events mbind option_bind]; [|done].
  rewrite bind_eq, attribute_run.
  destruct (stringAttr m "buildid") as [id|]; cbn [outcome after events mbind option_bind]; [|done].
  rewrite bind_eq.
  destruct (Message.ReceiptHandle m) as [h|]; cbn [deref outcome after events mbind option_bind]; [|done].
  rewrite ret_eq. cbn [outcome after events].
  rewrite bind_eq, deleteMessage_run. cbn [outcome after events].
  rewrite bind_eq. unfold deleteLog.
  destruct (errors_Wrap _ _ _) as [e|]; cbn [log_Printf emit outcome after events];
    rewrite ?ret_eq; cbn [outcome after events];
    rewrite !prefixed_prefixed; done.
Qed.

Lemma relayAll_run (l : list Deferral) :
  forall s : SQSDeferralService Q,
    relayAll l s =
    mkRun (if decide (length l <= relay s)%nat then Returned tt else Blocked)
      (withRelay (relay s - length l) s)
      (EvRelay <$> take (relay s) l).
Proof.
  induction l as [|d l IH]; intros [q url room]; cbn [relayAll].
  - rewrite ret_eq. unfold withRelay. cbn.
    rewrite Nat.sub_0_r, take_nil, decide_True by lia. done.
  - rewrite bind_eq. unfold send at 1 2 3. cbn [relay sqs queueURL length].
    destruct room as [|room]; cbn [outcome after events prefixed]; [done|].
    rewrite IH. unfold withRelay. cbn [relay sqs queueURL outcome after events].
    destruct (decide (length l <= room)%nat);
      [rewrite decide_True by lia|rewrite decide_False by lia]; done.
Qed.

Lemma relayed_app (a b : list Event) : relayed (a ++ b) = relayed a ++ relayed b.
Proof. apply omap_app. Qed.

Lemma deleted_app (a b : list Event) : deleted (a ++ b) = deleted a ++ deleted b.
Proof. apply omap_app. Qed.

Lemma received_app (a b : list Event) : received (a ++ b) = received a ++ received b.
Proof. apply omap_app. Qed.

Lemma batches_app (a b : list Event) : batches (a ++ b) = batches a ++ batches b.
Proof. apply omap_app. Qed.

Lemma relayed_EvRelay (l : list Deferral) : relayed (EvRelay <$> l) = l.
Proof. induction l as [|d l IH]; [done|]. simpl. f_equal. apply IH. Qed.

Lemma deleted_EvRelay (l : list Deferral) : deleted (EvRelay <$> l) = [].
Proof. by induction l. Qed.

Lemma received_EvRelay (l : list Deferral) : received (EvRelay <$> l) = [].
Proof. by induction l. Qed.

Lemma batches_EvRelay (l : list Deferral) : batches (EvRelay <$> l) = [].
Proof. by induction l. Qed.

Lemma deleteLog_quiet (h : string) (err : option error) :
  relayed (deleteLog h err) = [] /\ deleted (deleteLog h err) = [] /\
  received (deleteLog h err) = [] /\ batches (deleteLog h err) = [].
Proof. unfold deleteLog. by destruct err. Qed.

(** The loop over [resp.Messages] only deletes and logs: it neither
    receives nor relays, it never blocks, and it leaves the queue URL and
    the relay channel as they are. *)
Lemma readMessages_shape (ms : list Message.t) :
  forall msgs (s : SQSDeferralService Q),
    relayed (events (readMessages ms msgs s)) = [] /\
    received (events (readMessages ms msgs s)) = [] /\
    batches (events (readMessages ms msgs s)) = [] /\
    queueURL (after (readMessages ms msgs s)) = queueURL s /\
    relay (after (readMessages ms msgs s)) = relay s /\
    outcome (readMessages ms msgs s) <> Blocked.
Proof.
  induction ms as [|m ms IH]; intros msgs s; [done|].
  rewrite readMessages_cons.
  destruct (stringAttr m "unixtime") as [t|]; [|done].
  destruct (ParseInt t) as [k|u].
  { destruct (IH msgs s) as (?&?&?&?&?&?). cbn. done. }
  destruct (parsedMessage m) as [[d h]|]; [|done].
  cbn zeta. set (r := DeleteMessage _ _).
  destruct (IH (msgs ++ [d]) (mkService r.2 (queueURL s) (relay s))) as (?&?&?&?&?&?).
  destruct (deleteLog_quiet h r.1) as (?&?&?&?).
  unfold prefixed. cbn [outcome after events].
  rewrite !relayed_app, !received_app, !batches_app.
  change (relayed [EvDeleteMessage _ _]) with (@nil Deferral).
  change (received [EvDeleteMessage _ _]) with (@nil ReceiveMessageInput.t).
  change (batches [EvDeleteMessage _ _]) with (@nil (list Message.t)).
  by repeat match goal with H : _ = [] |- _ => rewrite H end.
Qed.

(** When the loop runs to its end, [msgs] has grown by the Deferrals of
    the messages that parse, in order, and one delete was requested for
    each of them, in the same order. *)
Lemma readMessages_returned (ms : list Message.t) :
  forall msgs (s : SQSDeferralService Q) msgs',
    outcome (readMessages ms msgs s) = Returned msgs' ->
    msgs' = msgs ++ parsedDeferrals ms /\
    deleted (events (readMessages ms msgs s)) =
      deleteParams (queueURL s) <$> parsedHandles ms.
Proof.
  unfold parsedDeferrals, parsedHandles.
  induction ms as [|m ms IH]; intros msgs s msgs'.
  { cbn. intros [= <-]. by rewrite app_nil_r. }
  rewrite readMessages_cons. cbn [omap list_omap].
  destruct (stringAttr m "unixtime") as [t|] eqn:Et; [|done].
  destruct (ParseInt t) as [k|u] eqn:Ep.
  { assert (parsedMessage m = None) as ->.
    { unfold parsedMessage. rewrite Et. cbn. by rewrite Ep. }
    cbn. apply IH. }
  destruct (parsedMessage m) as [[d h]|]; [|done].
  cbn zeta. set (r := DeleteMessage _ _).
  unfold prefixed. cbn [outcome after events]. intros Hout.
  apply IH in Hout as [-> Hdel]. cbn [queueURL] in Hdel.
  split; [by rewrite <- app_assoc|].
  rewrite !deleted_app, Hdel.
  destruct (deleteLog_quiet h r.1) as (_&->&_). done.
Qed.

(** The loop does not look at the relay channel. *)
Lemma readMessages_relay (ms : list Message.t) :
  forall msgs (s : SQSDeferralService Q) room,
    readMessages ms msgs (withRelay room s) =
    mkRun (outcome (readMessages ms msgs s))
      (withRelay room (after (readMessages ms msgs s)))
      (events (readMessages ms msgs s)).
Proof.
  induction ms as [|m ms IH]; intros msgs s room; [done|].
  rewrite !readMessages_cons.
  destruct (stringAttr m "unixtime") as [t|]; [|done].
  destruct (ParseInt t) as [k|u].
  { unfold prefixed. by rewrite IH. }
  destruct (parsedMessage m) as [[d h]|]; [|done].
  cbn zeta. cbn [withRelay sqs queueURL relay].
  set (r := DeleteMessage _ _).
  change (mkService r.2 (queueURL s) room)
    with (withRelay room (mkService r.2 (queueURL s) (relay s))).
  unfold prefixed. by rewrite IH.
Qed.

Lemma bind_assoc {A B C} (m : M Q A) (f : A -> M Q B) (g : B -> M Q C)
    (s : SQSDeferralService Q) :
  ((m ≫= f) ≫= g) s = (m ≫= (fun a => f a ≫= g)) s.
Proof.
  rewrite !bind_eq. destruct (outcome (m s)) eqn:E; [|done..].
  rewrite bind_eq. unfold prefixed. cbn [outcome after events].
  destruct (outcome (f a (after (m s)))); cbn [outcome after events]; [|done..].
  by rewrite app_assoc.
Qed.

Lemma prefixed_bind {A B} (evs : list Event) (m : M Q A) (f : A -> M Q B)
    (s : SQSDeferralService Q) :
  match outcome (prefixed evs (m s)) with
  | Returned a => prefixed (events (prefixed evs (m s))) (f a (after (prefixed evs (m s))))
  | Panicked => mkRun Panicked (after (prefixed evs (m s))) (events (prefixed evs (m s)))
  | Blocked => mkRun Blocked (after (prefixed evs (m s))) (events (prefixed evs (m s)))
  end = prefixed evs ((m ≫= f) s).
Proof.
  rewrite bind_eq. unfold prefixed. cbn [outcome after events].
  destruct (outcome (m s)); cbn [outcome after events]; [|done..].
  by rewrite app_assoc.
Qed.

(** The loop over a batch is the loop over its front part followed by the
    loop over the rest. *)
Lemma readMessages_app (pre post : list Message.t) :
  forall msgs (s : SQSDeferralService Q),
    readMessages (pre ++ post) msgs s =
    (readMessages pre msgs ≫= readMessages post) s.
Proof.
  induction pre as [|m pre IH]; intros msgs s.
  { rewrite bind_eq. cbn. by rewrite prefixed_nil. }
  rewrite bind_eq. rewrite <- app_comm_cons, !readMessages_cons.
  destruct (stringAttr m "unixtime") as [t|]; [|done].
  destruct (ParseInt t) as [k|u].
  { rewrite IH. by rewrite prefixed_bind. }
  destruct (parsedMessage m) as [[d h]|]; [|done].
  cbn zeta. rewrite IH. by rewrite prefixed_bind.
Qed.

End RunLemmas.

(** ** Printing a time stamp and parsing it back *)

Lemma digitVal_digitChar (d : Z) : 0 <= d < 10 -> digitVal (digitChar d) = Some d.
Proof.
  intros Hd.
  assert (d = 0 \/ d = 1 \/ d = 2 \/ d = 3 \/ d = 4 \/
          d = 5 \/ d = 6 \/ d = 7 \/ d = 8 \/ d = 9) as Hcases by lia.
  repeat (destruct Hcases as [->|Hcases]; [reflexivity|]). by subst.
Qed.

Lemma digitVal_not_sign (c : ascii) (d : Z) :
  digitVal c = Some d -> c <> "-"%char /\ c <> "+"%char.
Proof. intros Hc. split; intros ->; discriminate Hc. Qed.

Lemma parseUint_loop_digit (d : Z) (acc : string) (n : Z) :
  0 <= d < 10 -> n * 10 + d <= maxUint64 ->
  parseUint_loop (String (digitChar d) acc) n = parseUint_loop acc (n * 10 + d).
Proof.
  intros Hd Hmax. cbn [parseUint_loop]. rewrite digitVal_digitChar by done.
  cbv zeta. destruct (Z.ltb_spec maxUint64 (n * 10 + d)); [lia|done].
Qed.

Lemma parseUint_loop_formatBits (fuel : nat) :
  forall u acc,
    0 <= u < 10 ^ Z.of_nat fuel -> u <= maxUint64 ->
    parseUint_loop (formatBits fuel u acc) 0 = parseUint_loop acc u.
Proof.
  induction fuel as [|fuel IH]; intros u acc Hu Hmax.
  - cbn [formatBits]. replace u with 0 by (change (10 ^ Z.of_nat 0) with 1 in Hu; lia).
    done.
  - cbn [formatBits].
    assert (0 <= u mod 10 < 10) by (apply Z.mod_pos_bound; lia).
    assert (u = u / 10 * 10 + u mod 10) as Hdiv
      by (rewrite (Z.mul_comm (u / 10)); apply Z.div_mod; lia).
    destruct (Z.ltb_spec u 10).
    + rewrite parseUint_loop_digit by (rewrite ?Z.mod_small; lia).
      by rewrite Z.mod_small by lia.
    + rewrite IH.
      * rewrite parseUint_loop_digit by lia. by rewrite <- Hdiv.
      * split; [apply Z.div_pos; lia|].
        apply Z.div_lt_upper_bound; [lia|].
        rewrite Nat2Z.inj_succ, Z.pow_succ_r in Hu by lia. lia.
      * assert (u / 10 <= u); [|lia].
        apply Z.div_le_upper_bound; lia.
Qed.

Lemma formatBits_head (fuel : nat) :
  forall u acc,
    0 <= u ->
    exists c rest d, formatBits (S fuel) u acc = String c rest /\ digitVal c = Some d.
Proof.
  induction fuel as [|fuel IH]; intros u acc Hu.
  - assert (0 <= u mod 10 < 10) by (apply Z.mod_pos_bound; lia).
    exists (digitChar (u mod 10)), acc, (u mod 10).
    split; [|by apply digitVal_digitChar].
    cbn [formatBits]. by destruct (u <? 10).
  - assert (0 <= u mod 10 < 10) by (apply Z.mod_pos_bound; lia).
    change (formatBits (S (S fuel)) u acc)
      with (if u <? 10 then String (digitChar (u mod 10)) acc
            else formatBits (S fuel) (u / 10) (String (digitChar (u mod 10)) acc)).
    destruct (u <? 10).
    + exists (digitChar (u mod 10)), acc, (u mod 10).
      split; [done|by apply digitVal_digitChar].
    + apply IH. apply Z.div_pos; lia.
Qed.

(** [ParseInt] reads back what [Sprintf("%d")] prints for an [int64]. *)
Lemma ParseInt_Sprintf_d (i : Z) :
  minInt64 <= i <= maxInt64 -> ParseInt (Sprintf_d i) = inr i.
Proof.
  unfold minInt64, maxInt64. intros Hi. unfold Sprintf_d.
  destruct (Z.ltb_spec i 0) as [Hneg|Hpos].
  - destruct (formatBits_head 19 (- i) "") as (c & rest & d & Hfmt & Hc); [lia|].
    unfold ParseInt. rewrite orb_true_r.
    assert (ParseUint (formatBits 20 (- i) "") = inr (- i)) as ->.
    { unfold ParseUint. rewrite Hfmt, <- Hfmt.
      rewrite parseUint_loop_formatBits; [done| |unfold maxUint64; lia].
      change (10 ^ Z.of_nat 20) with 100000000000000000000. lia. }
    cbv zeta. cbn [negb andb bool_decide decide_rel].
    rewrite bool_decide_true by done. cbn [negb andb].
    destruct (Z.ltb_spec 9223372036854775808 (- i)); [lia|].
    f_equal. lia.
  - destruct (formatBits_head 19 i "") as (c & rest & d & Hfmt & Hc); [lia|].
    apply digitVal_not_sign in Hc as [Hminus Hplus].
    assert (ParseUint (formatBits 20 i "") = inr i) as Hparse.
    { unfold ParseUint. rewrite Hfmt, <- Hfmt.
      rewrite parseUint_loop_formatBits; [done| |unfold maxUint64; lia].
      change (10 ^ Z.of_nat 20) with 100000000000000000000. lia. }
    unfold ParseInt. rewrite Hfmt.
    rewrite !bool_decide_false by done. cbn [orb]. rewrite <- Hfmt, Hparse.
    cbv zeta. cbn [negb andb].
    destruct (Z.leb_spec 9223372036854775808 i); [lia|done].
Qed.

(** ** Resubmit *)

Section ResubmitProperties.
Context {Q : Type} `{!SQS Q} `{!TimeSort}.

Lemma Resubmit_run (s : SQSDeferralService Q) :
  Resubmit s =
  let rp := receiveParams (queueURL s) None in
  let a := ReceiveMessage rp (sqs s) in
  prefixed [EvReceiveMessage rp a.1]
    match a.1 with
    | inl err =>
        mkRun (Returned tt) (mkService a.2 (queueURL s) (relay s))
          [EvLog "%v\n" [AErr err]]
    | inr messages => relayBatch messages (mkService a.2 (queueURL s) (relay s))
    end.
Proof.
  unfold Resubmit. rewrite bind_eq. cbn [getQueueURL outcome after events].
  rewrite prefixed_nil, bind_eq, call_run. cbn [outcome after events].
  by destruct (ReceiveMessage _ _).1.
Qed.

(** The Deferrals a batch puts on the relay channel. *)
Lemma relayBatch_events (ms : list Message.t) (s : SQSDeferralService Q) :
  events (relayBatch ms s) =
  events (readMessages ms [] s) ++
  (EvRelay <$>
     match outcome (readMessages ms [] s) with
     | Returned msgs => take (relay s) (dedup (sortByTime msgs))
     | _ => []
     end).
Proof.
  unfold relayBatch. rewrite bind_eq.
  destruct (readMessages_shape ms [] s) as (_&_&_&_&Hroom&_).
  destruct (outcome (readMessages ms [] s)) as [msgs| |];
    cbn [prefixed outcome after events fmap list_fmap]; rewrite ?app_nil_r; [|done..].
  by rewrite relayAll_run, Hroom.
Qed.

Lemma relayBatch_outcome (ms : list Message.t) (s : SQSDeferralService Q) :
  outcome (relayBatch ms s) =
  match outcome (readMessages ms [] s) with
  | Returned msgs =>
      if decide (length (dedup (sortByTime msgs)) <= relay s)%nat
      then Returned tt else Blocked
  | Panicked => Panicked
  | Blocked => Blocked
  end.
Proof.
  unfold relayBatch. rewrite bind_eq.
  destruct (readMessages_shape ms [] s) as (_&_&_&_&Hroom&_).
  destruct (outcome (readMessages ms [] s)) as [msgs| |];
    cbn [prefixed outcome after events]; [|done..].
  by rewrite relayAll_run, Hroom.
Qed.

Lemma relayBatch_sqs (ms : list Message.t) (s : SQSDeferralService Q) :
  sqs (after (relayBatch ms s)) = sqs (after (readMessages ms [] s)).
Proof.
  unfold relayBatch. rewrite bind_eq.
  destruct (outcome (readMessages ms [] s)) as [msgs| |];
    cbn [prefixed outcome after events]; [|done..].
  by rewrite relayAll_run.
Qed.

Lemma relayBatch_relayed (ms : list Message.t) (s : SQSDeferralService Q) :
  relayed (events (relayBatch ms s)) =
  match outcome (readMessages ms [] s) with
  | Returned msgs => take (relay s) (dedup (sortByTime msgs))
  | _ => []
  end.
Proof.
  rewrite relayBatch_events, relayed_app, relayed_EvRelay.
  by destruct (readMessages_shape ms [] s) as (->&_).
Qed.

Lemma Resubmit_relayed (s : SQSDeferralService Q) :
  relayed (events (Resubmit s)) = [] \/
  exists msgs, relayed (events (Resubmit s)) = take (relay s) (dedup (sortByTime msgs)).
Proof.
  rewrite Resubmit_run. cbv zeta.
  destruct (ReceiveMessage _ _).1 as [err|ms]; [by left|].
  unfold prefixed. cbn [events]. rewrite relayed_app.
  change (relayed [EvReceiveMessage _ _]) with (@nil Deferral).
  rewrite app_nil_l, relayBatch_relayed. cbn [relay].
  destruct (outcome _) as [msgs| |]; [right; by exists msgs|by left..].
Qed.

Lemma StronglySorted_lookup_le (l : list Deferral) :
  StronglySorted TimeLe l ->
  forall i j x y, (i < j)%nat -> l !! i = Some x -> l !! j = Some y -> TimeLe x y.
Proof.
  induction 1 as [|a l Hl IH Ha]; intros i j x y Hij Hi Hj; [done|].
  destruct j as [|j]; [lia|]. destruct i as [|i]; simplify_eq/=.
  - rewrite Forall_forall in Ha. apply Ha. by eapply list_elem_of_lookup_2.
  - apply (IH i j); [lia|done..].
Qed.

Lemma Resubmit_relayed_sorted (s : SQSDeferralService Q) :
  StronglySorted TimeLe (relayed (events (Resubmit s))).
Proof.
  destruct (Resubmit_relayed s) as [->|[msgs ->]]; [constructor|].
  eapply StronglySorted_sublist; [apply sublist_take|].
  apply dedup_sorted, sortByTime_sorted.
Qed.

(** C4.  Of any two Deferrals that one call of [Resubmit] sends on the
    relay channel, the one sent earlier has the smaller or the same
    [UnixTime]. *)
Theorem Resubmit_relays_in_time_order (s : SQSDeferralService Q)
    (i j : nat) (d1 d2 : Deferral) :
  (i < j)%nat ->
  relayed (events (Resubmit s)) !! i = Some d1 ->
  relayed (events (Resubmit s)) !! j = Some d2 ->
  UnixTime d1 <= UnixTime d2.
Proof.
  apply (StronglySorted_lookup_le _ (Resubmit_relayed_sorted s)).
Qed.

End ResubmitProperties.

Section ResubmitBatches.
Context {Q : Type} `{!SQS Q} `{!TimeSort}.

Lemma relayBatch_after (ms : list Message.t) (s : SQSDeferralService Q) :
  after (relayBatch ms s) =
  match outcome (readMessages ms [] s) with
  | Returned msgs =>
      withRelay (relay s - length (dedup (sortByTime msgs)))
        (after (readMessages ms [] s))
  | _ => after (readMessages ms [] s)
  end.
Proof.
  unfold relayBatch. rewrite bind_eq.
  destruct (readMessages_shape ms [] s) as (_&_&_&_&Hroom&_).
  destruct (outcome (readMessages ms [] s)) as [msgs| |];
    cbn [prefixed outcome after events]; [|done..].
  by rewrite relayAll_run, Hroom.
Qed.

Lemma dedup_sort_submseteq (l : list Deferral) (n : nat) :
  take n (dedup (sortByTime l)) ⊆+ l.
Proof.
  etrans; [apply submseteq_take|].
  etrans; [apply sublist_submseteq; rewrite dedup_eq; apply dedup_from_sublist|].
  apply Permutation_submseteq, sortByTime_perm.
Qed.

(** C6.  The events of a call of [Resubmit] split into a first part [pre]
    without any send on the relay channel, followed by nothing but the
    sends [out]: every delete request comes before the first send.  The
    first part and the state the queue client is left in are the same
    whatever the relay channel takes, including when a send blocks.  When
    the receive call answered with messages [ms] and no message made the
    call panic, [pre] holds one delete request for each message of [ms]
    that parsed, and [out] is drawn from the Deferrals of these messages
    without using any of them twice. *)
Theorem Resubmit_deletes_before_relaying (s : SQSDeferralService Q) :
  exists pre out,
    events (Resubmit s) = pre ++ (EvRelay <$> out) /\
    relayed pre = [] /\
    (forall room, exists out',
        events (Resubmit (withRelay room s)) = pre ++ (EvRelay <$> out') /\
        sqs (after (Resubmit (withRelay room s))) = sqs (after (Resubmit s))) /\
    (forall ms,
        batches pre = [ms] -> outcome (Resubmit s) <> Panicked ->
        deleted pre = deleteParams (queueURL s) <$> parsedHandles ms /\
        out = take (relay s) (dedup (sortByTime (parsedDeferrals ms))) /\
        out ⊆+ parsedDeferrals ms).
Proof.
  pose proof (Resubmit_run s) as Hrun. cbv zeta in Hrun.
  assert (forall room,
    Resubmit (withRelay room s) =
    prefixed [EvReceiveMessage (receiveParams (queueURL s) None)
                (ReceiveMessage (receiveParams (queueURL s) None) (sqs s)).1]
      match (ReceiveMessage (receiveParams (queueURL s) None) (sqs s)).1 with
      | inl err =>
          mkRun (Returned tt)
            (mkService (ReceiveMessage (receiveParams (queueURL s) None) (sqs s)).2
               (queueURL s) room)
            [EvLog "%v\n" [AErr err]]
      | inr messages =>
          relayBatch messages
            (withRelay room
               (mkService (ReceiveMessage (receiveParams (queueURL s) None) (sqs s)).2
                  (queueURL s) (relay s)))
      end) as Hroom.
  { intros room. by rewrite Resubmit_run. }
  set (rp := receiveParams (queueURL s) None) in *.
  set (a := ReceiveMessage rp (sqs s)) in *.
  set (s1 := mkService a.2 (queueURL s) (relay s)) in *.
  destruct a.1 as [err|ms0] eqn:Ea.
  - exists [EvReceiveMessage rp (inl err); EvLog "%v\n" [AErr err]], [].
    split; [by rewrite Hrun|]. split; [done|]. split; [|done].
    intros room. exists []. by rewrite Hroom, Hrun.
  - pose proof (readMessages_shape ms0 [] s1) as (Hrel&Hrec&Hbat&Hurl&Hrelay&Hblk).
    exists ([EvReceiveMessage rp (inr ms0)] ++ events (readMessages ms0 [] s1)).
    exists (match outcome (readMessages ms0 [] s1) with
            | Returned msgs => take (relay s1) (dedup (sortByTime msgs))
            | _ => []
            end).
    split; [|split; [|split]].
    + rewrite Hrun. unfold prefixed. cbn [events].
      by rewrite relayBatch_events, app_assoc.
    + by rewrite relayed_app, Hrel.
    + intros room. rewrite Hroom, Hrun. unfold prefixed. cbn [events after].
      rewrite relayBatch_events, !relayBatch_sqs, readMessages_relay.
      cbn [events outcome after withRelay sqs relay].
      eexists. split; [by rewrite app_assoc|done].
    + intros ms Hms Hout. rewrite batches_app, Hbat in Hms.
      cbn in Hms. injection Hms as <-.
      rewrite Hrun in Hout. cbn [prefixed outcome] in Hout.
      rewrite relayBatch_outcome in Hout.
      destruct (outcome (readMessages ms0 [] s1)) as [msgs| |] eqn:Eo; [|done..].
      apply readMessages_returned in Eo as [-> Hdel]. rewrite app_nil_l.
      split; [|split; [done|apply dedup_sort_submseteq]].
      by rewrite deleted_app, Hdel.
Qed.

(** A batch with and without a message whose time stamp does not parse. *)
Lemma readMessages_skip (pre post : list Message.t) (m : Message.t) :
  unparsable m ->
  forall msgs (s : SQSDeferralService Q),
    outcome (readMessages (pre ++ m :: post) msgs s) =
      outcome (readMessages (pre ++ post) msgs s) /\
    after (readMessages (pre ++ m :: post) msgs s) =
      after (readMessages (pre ++ post) msgs s) /\
    deleted (events (readMessages (pre ++ m :: post) msgs s)) =
      deleted (events (readMessages (pre ++ post) msgs s)).
Proof.
  intros (t & kind & Ht & Hp).
  induction pre as [|x pre IH]; intros msgs s.
  - rewrite app_nil_l, readMessages_cons, Ht, Hp. done.
  - rewrite <- !app_comm_cons, !readMessages_cons.
    destruct (stringAttr x "unixtime") as [tx|]; [|done].
    destruct (ParseInt tx) as [k|u].
    { destruct (IH msgs s) as (?&?&?). unfold prefixed. cbn [outcome after events].
      rewrite !deleted_app. repeat split; [done..|by f_equal]. }
    destruct (parsedMessage x) as [[d h]|]; [|done].
    cbn zeta. set (r := DeleteMessage _ _).
    destruct (IH (msgs ++ [d]) (mkService r.2 (queueURL s) (relay s))) as (?&?&?).
    unfold prefixed. cbn [outcome after events].
    rewrite !(deleted_app (_ ++ _)). repeat split; [done..|by f_equal].
Qed.

(** C7.  A received message whose [unixtime] attribute does not parse
    costs one log line and nothing else: no delete is requested for it
    and no Deferral is made of it.  [Resubmit] then ends as it would have
    on the batch without that message, in the same state, having
    requested the same deletes and relayed the same Deferrals, so the
    other messages of the batch are processed all the same. *)
Theorem Resubmit_skips_unparsable (s : SQSDeferralService Q)
    (pre post : list Message.t) (m : Message.t) :
  unparsable m ->
  (ReceiveMessage (receiveParams (queueURL s) None) (sqs s)).1 = inr (pre ++ m :: post) ->
  (forall msgs (s' : SQSDeferralService Q),
      outcome (readMessages [m] msgs s') = Returned msgs /\
      after (readMessages [m] msgs s') = s' /\
      deleted (events (readMessages [m] msgs s')) = [] /\
      relayed (events (readMessages [m] msgs s')) = []) /\
  let s1 :=
    mkService (ReceiveMessage (receiveParams (queueURL s) None) (sqs s)).2
      (queueURL s) (relay s) in
  outcome (Resubmit s) = outcome (relayBatch (pre ++ post) s1) /\
  after (Resubmit s) = after (relayBatch (pre ++ post) s1) /\
  deleted (events (Resubmit s)) = deleted (events (relayBatch (pre ++ post) s1)) /\
  relayed (events (Resubmit s)) = relayed (events (relayBatch (pre ++ post) s1)).
Proof.
  intros Hm Hrecv. split.
  { intros msgs s'. destruct Hm as (t & kind & Ht & Hp).
    by rewrite readMessages_cons, Ht, Hp. }
  intros s1. rewrite Resubmit_run. cbv zeta. rewrite Hrecv. fold s1.
  destruct (readMessages_skip pre post m Hm [] s1) as (Ho & Ha & Hd).
  unfold prefixed. cbn [outcome after events].
  rewrite deleted_app, relayed_app, !relayBatch_outcome, !relayBatch_after,
    !relayBatch_relayed, !relayBatch_events, !deleted_app, !deleted_EvRelay.
  rewrite Ho, Ha, Hd. done.
Qed.

End ResubmitBatches.

(** ** Defer *)

Section DeferProperties.
Context {Q : Type} `{!SQS Q} `{!TimeSort}.

Lemma Defer_run (now : Z) (projectKey branch buildID : string)
    (s : SQSDeferralService Q) :
  Defer now projectKey branch buildID s =
  let p := SendMessageInput.mk (Some (queueURL s)) (Some buildID) (Some 1)
             (deferAttributes now projectKey branch buildID) in
  mkRun (Returned (SendMessage p (sqs s)).1)
    (mkService (SendMessage p (sqs s)).2 (queueURL s) (relay s))
    [EvSendMessage p (SendMessage p (sqs s)).1].
Proof.
  unfold Defer. rewrite bind_eq. cbn [getQueueURL outcome after events].
  by rewrite prefixed_nil, call_run.
Qed.

Lemma attributes_lookup (a1 a2 a3 a4 : MessageAttributeValue) :
  let attrs : gmap string MessageAttributeValue :=
    list_to_map [("projectkey", a1); ("branch", a2); ("buildid", a3); ("unixtime", a4)] in
  attrs !! "projectkey" = Some a1 /\ attrs !! "branch" = Some a2 /\
  attrs !! "buildid" = Some a3 /\ attrs !! "unixtime" = Some a4.
Proof. cbv zeta. by vm_compute. Qed.

(** The message [Defer] sends parses to the Deferral that was deferred. *)
Lemma parsedMessage_deferred (now : Z) (projectKey branch buildID handle : string) :
  minInt64 <= now <= maxInt64 ->
  parsedMessage (Message.mk (deferAttributes now projectKey branch buildID) (Some handle))
  = Some (mkDeferral projectKey branch buildID now, handle).
Proof.
  intros Hnow. unfold parsedMessage, stringAttr, deferAttributes.
  cbn [Message.MessageAttributes Message.ReceiptHandle].
  destruct (attributes_lookup
              (mkAttr (Some "String") (Some projectKey))
              (mkAttr (Some "String") (Some branch))
              (mkAttr (Some "String") (Some buildID))
              (mkAttr (Some "Number") (Some (Sprintf_d now)))) as (->&->&->&->).
  cbn [mbind option_bind StringValue]. by rewrite ParseInt_Sprintf_d.
Qed.

Lemma readMessages_parsed (m : Message.t) (d : Deferral) (h : string)
    (rest : list Message.t) (msgs : list Deferral) (s : SQSDeferralService Q) :
  parsedMessage m = Some (d, h) ->
  readMessages (m :: rest) msgs s =
  let r := DeleteMessage (deleteParams (queueURL s) h) (sqs s) in
  prefixed ([EvDeleteMessage (deleteParams (queueURL s) h) r.1] ++ deleteLog h r.1)
    (readMessages rest (msgs ++ [d]) (mkService r.2 (queueURL s) (relay s))).
Proof.
  intros Hm. rewrite readMessages_cons, Hm. unfold parsedMessage in Hm.
  destruct (stringAttr m "unixtime") as [t|]; [|done].
  cbn [mbind option_bind] in Hm. by destruct (ParseInt t).
Qed.

Lemma sortByTime_singleton (d : Deferral) : sortByTime [d] = [d].
Proof. apply Permutation_singleton_r, sortByTime_perm. Qed.

Lemma dedup_singleton (d : Deferral) : dedup [d] = [d].
Proof. rewrite dedup_eq. cbn. by rewrite decide_True by apply Key_nonempty. Qed.

(** C5.  [Defer] sends one message that carries the three arguments and the
    time of the call as attributes.  When the queue, empty before, hands
    that message to the receive call of the following [Resubmit], and the
    relay channel takes a value, [Resubmit] sends exactly one Deferral on
    the relay channel, with the [ProjectKey], [Branch] and [BuildID] given
    to [Defer]. *)
Theorem Defer_then_Resubmit (s : SQSDeferralService Q) (now : Z)
    (projectKey branch buildID handle : string) :
  minInt64 <= now <= maxInt64 ->
  relay s <> 0%nat ->
  (ReceiveMessage (receiveParams (queueURL s) None)
     (sqs (after (Defer now projectKey branch buildID s)))).1
    = inr [Message.mk (deferAttributes now projectKey branch buildID) (Some handle)] ->
  SendMessageInput.MessageAttributes <$> sent (events (Defer now projectKey branch buildID s))
    = [deferAttributes now projectKey branch buildID] /\
  exists d,
    relayed (events (Resubmit (after (Defer now projectKey branch buildID s)))) = [d] /\
    ProjectKey d = projectKey /\ Branch d = branch /\ BuildID d = buildID.
Proof.
  intros Hnow Hroom Hrecv. rewrite Defer_run in Hrecv |- *. cbv zeta in Hrecv |- *.
  cbn [after events sqs] in Hrecv |- *. split; [done|].
  exists (mkDeferral projectKey branch buildID now). split; [|done].
  rewrite Resubmit_run. cbv zeta. cbn [queueURL sqs relay]. rewrite Hrecv.
  unfold prefixed. cbn [events]. rewrite relayed_app.
  change (relayed [EvReceiveMessage _ _]) with (@nil Deferral).
  rewrite app_nil_l, relayBatch_relayed.
  rewrite (readMessages_parsed _ _ _ _ _ _ (parsedMessage_deferred _ _ _ _ handle Hnow)).
  cbv zeta. cbn [prefixed outcome readMessages mret M_ret app relay].
  rewrite sortByTime_singleton, dedup_singleton.
  destruct (relay s) as [|room]; [by destruct Hroom|].
  cbn [take]. by rewrite take_nil.
Qed.

(** C3, as the code has it.  [Defer] calls [SendMessage] exactly once,
    and what it returns is the answer of that one call, whether nil or an
    error: a failed send is not repeated by the service.  Likewise
    [Resubmit] calls [ReceiveMessage] exactly once. *)
Theorem Defer_sends_once (s : SQSDeferralService Q) (now : Z)
    (projectKey branch buildID : string) :
  let p := SendMessageInput.mk (Some (queueURL s)) (Some buildID) (Some 1)
             (deferAttributes now projectKey branch buildID) in
  events (Defer now projectKey branch buildID s)
    = [EvSendMessage p (SendMessage p (sqs s)).1] /\
  outcome (Defer now projectKey branch buildID s)
    = Returned (SendMessage p (sqs s)).1 /\
  sqs (after (Defer now projectKey branch buildID s)) = (SendMessage p (sqs s)).2 /\
  length (received (events (Resubmit s))) = 1%nat.
Proof.
  cbv zeta. rewrite Defer_run. cbv zeta. cbn [events outcome after sqs].
  split; [done|]. split; [done|]. split; [done|].
  rewrite Resubmit_run. cbv zeta. unfold prefixed. cbn [events].
  rewrite received_app.
  destruct (ReceiveMessage _ _).1 as [err|ms]; [done|].
  rewrite relayBatch_events, received_app, received_EvRelay.
  by destruct (readMessages_shape ms []
                 (mkService (ReceiveMessage (receiveParams (queueURL s) None) (sqs s)).2
                    (queueURL s) (relay s))) as (_&->&_).
Qed.

End DeferProperties.

(** ** DeferredBuilds *)

Lemma readsFor_ceil (n : Z) : readsFor n = ceilDiv10 n.
Proof.
  unfold readsFor, ceilDiv10. cbv zeta.
  pose proof (Z.quot_rem' n 10) as Hq.
  pose proof (Z.div_mod (- n) 10 ltac:(lia)) as Hd.
  pose proof (Z.mod_pos_bound (- n) 10 ltac:(lia)) as Hm.
  destruct (Z.le_gt_cases 0 n) as [Hn|Hn].
  - pose proof (Z.rem_bound_pos n 10 Hn ltac:(lia)).
    destruct (Z.ltb_spec 0 (Z.rem n 10)); lia.
  - pose proof (Z.rem_bound_pos_neg n 10 ltac:(lia) ltac:(lia)).
    destruct (Z.ltb_spec 0 (Z.rem n 10)); lia.
Qed.

Lemma ceilDiv10_bounds (n : Z) : 10 * (ceilDiv10 n - 1) < n <= 10 * ceilDiv10 n.
Proof.
  unfold ceilDiv10.
  pose proof (Z.div_mod (- n) 10 ltac:(lia)).
  pose proof (Z.mod_pos_bound (- n) 10 ltac:(lia)). lia.
Qed.

Section DeferredBuildsProperties.
Context {Q : Type} `{!SQS Q} `{!TimeSort}.

Lemma getVisibleMessagesCount_run (s : SQSDeferralService Q) :
  getVisibleMessagesCount s =
  let p := GetQueueAttributesInput.mk (Some (queueURL s))
             [Some "ApproximateNumberOfMessages"] in
  let a := GetQueueAttributes p (sqs s) in
  let s1 := mkService a.2 (queueURL s) (relay s) in
  match a.1 with
  | inl err =>
      mkRun (Returned (0, Some (Wrapped err
               "%T: Error reading available messages count: %v"
               [AReceiver; AErr err])))
        s1 [EvGetQueueAttributes p a.1]
  | inr attributes =>
      match attributes !! "ApproximateNumberOfMessages" with
      | None => mkRun Panicked s1 [EvGetQueueAttributes p a.1]
      | Some v =>
          match Atoi v with
          | inl kind =>
              mkRun (Returned (0, Some (NumError "Atoi" v kind))) s1
                [EvGetQueueAttributes p a.1]
          | inr i => mkRun (Returned (i, None)) s1 [EvGetQueueAttributes p a.1]
          end
      end
  end.
Proof.
  unfold getVisibleMessagesCount. rewrite bind_eq.
  cbn [getQueueURL outcome after events]. rewrite prefixed_nil, bind_eq, call_run.
  cbn [outcome after events]. cbv zeta.
  destruct (GetQueueAttributes _ _).1 as [err|attributes]; [done|].
  rewrite bind_eq.
  destruct (attributes !! "ApproximateNumberOfMessages") as [v|]; [|reflexivity].
  cbn [deref mret M_ret outcome after events]. destruct (Atoi v); reflexivity.
Qed.

(** [getVisibleMessagesCount] makes one call, [GetQueueAttributes]. *)
Lemma getVisibleMessagesCount_events (s : SQSDeferralService Q) :
  exists p a, events (getVisibleMessagesCount s) = [EvGetQueueAttributes p a].
Proof.
  rewrite getVisibleMessagesCount_run. cbv zeta.
  set (p := GetQueueAttributesInput.mk _ _). set (a := GetQueueAttributes p (sqs s)).
  exists p, a.1.
  destruct a.1 as [err|attributes]; [done|].
  destruct (attributes !! _) as [v|]; [|done]. by destruct (Atoi v).
Qed.

Lemma DeferredBuilds_run (s : SQSDeferralService Q) :
  DeferredBuilds s =
  let c := getVisibleMessagesCount s in
  match outcome c with
  | Returned (n, Some e) =>
      mkRun (Returned ([], Some (Wrapped e "error retrieving number of visible messages" [])))
        (after c) (events c)
  | Returned (n, None) =>
      let r := readBatches (Z.to_nat (readsFor n)) [] (after c) in
      match outcome r with
      | Returned msgs => mkRun (Returned (msgs, None)) (after r) (events c ++ events r)
      | Panicked => mkRun Panicked (after r) (events c ++ events r)
      | Blocked => mkRun Blocked (after r) (events c ++ events r)
      end
  | Panicked => mkRun Panicked (after c) (events c)
  | Blocked => mkRun Blocked (after c) (events c)
  end.
Proof.
  unfold DeferredBuilds. rewrite bind_eq. cbv zeta.
  destruct (outcome (getVisibleMessagesCount s)) as [[n [e|]]| |]; [| |done..].
  - unfold prefixed. cbn [mret M_ret errors_Wrap outcome after events].
    by rewrite app_nil_r.
  - rewrite bind_eq. unfold prefixed.
    destruct (outcome (readBatches _ _ _)); cbn [mret M_ret outcome after events];
      by rewrite ?app_nil_r.
Qed.

(** One turn of the paging loop. *)
Lemma readBatches_S (reads : nat) (msgs : list Deferral) (s : SQSDeferralService Q) :
  readBatches (S reads) msgs s =
  let rp := receiveParams (queueURL s) (Some 0) in
  let a := ReceiveMessage rp (sqs s) in
  let s1 := mkService a.2 (queueURL s) (relay s) in
  prefixed [EvReceiveMessage rp a.1]
    match a.1 with
    | inl err => prefixed [EvLog "%v\n" [AErr err]] (readBatches reads msgs s1)
    | inr messages =>
        (readMessages messages msgs ≫=
           fun msgs' => readBatches reads (dedup (sortByTime msgs'))) s1
    end.
Proof.
  cbn [readBatches]. rewrite bind_eq. cbn [getQueueURL outcome after events].
  rewrite prefixed_nil, bind_eq, call_run. cbn [outcome after events]. cbv zeta.
  destruct (ReceiveMessage _ _).1 as [err|ms]; [|done].
  by rewrite bind_eq.
Qed.

(** The paging loop asks for at most ten messages with a visibility
    timeout of zero each time, never more than [reads] times and exactly
    [reads] times unless a message makes it panic. *)
Lemma readBatches_received (reads : nat) :
  forall msgs (s : SQSDeferralService Q),
    Forall (fun p => p = receiveParams (queueURL s) (Some 0))
      (received (events (readBatches reads msgs s))) /\
    (outcome (readBatches reads msgs s) <> Panicked ->
     length (received (events (readBatches reads msgs s))) = reads) /\
    relayed (events (readBatches reads msgs s)) = [] /\
    outcome (readBatches reads msgs s) <> Blocked.
Proof.
  induction reads as [|reads IH]; intros msgs s; [done|].
  rewrite readBatches_S. cbv zeta.
  set (rp := receiveParams (queueURL s) (Some 0)).
  set (a := ReceiveMessage rp (sqs s)).
  set (s1 := mkService a.2 (queueURL s) (relay s)).
  destruct a.1 as [err|ms].
  - destruct (IH msgs s1) as (Hall & Hlen & Hrel & Hblk).
    unfold prefixed. cbn [outcome after events].
    rewrite !received_app, !relayed_app, Hrel.
    change (received [EvReceiveMessage rp (inl err)]) with [rp].
    change (received [EvLog _ _]) with (@nil ReceiveMessageInput.t).
    split; [by constructor|]. split; [|done].
    intros Hout. cbn. f_equal. by apply Hlen.
  - rewrite bind_eq.
    pose proof (readMessages_shape ms msgs s1) as (Hrel1&Hrec1&_&Hurl&_&Hblk1).
    destruct (outcome (readMessages ms msgs s1)) as [msgs1| |] eqn:Eo.
    + destruct (IH (dedup (sortByTime msgs1)) (after (readMessages ms msgs s1)))
        as (Hall & Hlen & Hrel & Hblk).
      rewrite Hurl in Hall.
      unfold prefixed. cbn [outcome after events].
      rewrite !received_app, !relayed_app, Hrel, Hrel1, Hrec1.
      change (received [EvReceiveMessage rp (inr ms)]) with [rp].
      split; [by constructor|]. split; [|done].
      intros Hout. cbn. f_equal. by apply Hlen.
    + unfold prefixed. cbn [outcome after events].
      rewrite !received_app, !relayed_app, Hrel1, Hrec1.
      change (received [EvReceiveMessage rp (inr ms)]) with [rp].
      split; [by repeat constructor|]. done.
    + done.
Qed.

(** What the paging loop returns: each answered batch in turn is parsed
    onto [msgs], and [msgs] is sorted and de-duplicated before the next
    batch is read. *)
Lemma readBatches_returned (reads : nat) :
  forall msgs (s : SQSDeferralService Q) msgs',
    outcome (readBatches reads msgs s) = Returned msgs' ->
    msgs' = foldl afterBatch msgs (batches (events (readBatches reads msgs s))).
Proof.
  induction reads as [|reads IH]; intros msgs s msgs'.
  { cbn. by intros [= <-]. }
  rewrite readBatches_S. cbv zeta.
  set (rp := receiveParams (queueURL s) (Some 0)).
  set (a := ReceiveMessage rp (sqs s)).
  set (s1 := mkService a.2 (queueURL s) (relay s)).
  destruct a.1 as [err|ms].
  - unfold prefixed. cbn [outcome after events]. intros Hout.
    rewrite !batches_app.
    change (batches [EvReceiveMessage rp (inl err)]) with (@nil (list Message.t)).
    change (batches [EvLog _ _]) with (@nil (list Message.t)).
    by apply IH.
  - rewrite bind_eq.
    pose proof (readMessages_shape ms msgs s1) as (_&_&Hbat&_).
    destruct (outcome (readMessages ms msgs s1)) as [msgs1| |] eqn:Eo; [|done..].
    apply readMessages_returned in Eo as [-> _].
    unfold prefixed. cbn [outcome after events]. intros Hout.
    rewrite !batches_app, Hbat.
    change (batches [EvReceiveMessage rp (inr ms)]) with [ms].
    by apply IH.
Qed.

Lemma afterBatch_sorted (msgs : list Deferral) (ms : list Message.t) :
  StronglySorted TimeLe (afterBatch msgs ms) /\ no_adjacent_dup (afterBatch msgs ms).
Proof.
  unfold afterBatch. split; [apply dedup_sorted, sortByTime_sorted|].
  rewrite dedup_eq. apply dedup_from_no_adjacent_dup.
Qed.

Lemma foldl_afterBatch_sorted (bs : list (list Message.t)) :
  forall msgs,
    StronglySorted TimeLe msgs -> no_adjacent_dup msgs ->
    StronglySorted TimeLe (foldl afterBatch msgs bs) /\
    no_adjacent_dup (foldl afterBatch msgs bs).
Proof.
  induction bs as [|b bs IH]; intros msgs Hs Hn; [done|].
  cbn [foldl]. apply IH; apply afterBatch_sorted.
Qed.

Lemma foldl_afterBatch_submseteq (bs : list (list Message.t)) :
  forall msgs, foldl afterBatch msgs bs ⊆+ msgs ++ concat (parsedDeferrals <$> bs).
Proof.
  induction bs as [|b bs IH]; intros msgs; cbn [foldl fmap list_fmap concat].
  { by rewrite app_nil_r. }
  etrans; [apply IH|]. rewrite app_assoc.
  apply submseteq_app; [|done]. unfold afterBatch.
  rewrite <- (take_ge (dedup _) (length (dedup (sortByTime (msgs ++ parsedDeferrals b)))))
    by done.
  apply dedup_sort_submseteq.
Qed.

End DeferredBuildsProperties.

Section DeferredBuildsClaims.
Context {Q : Type} `{!SQS Q} `{!TimeSort}.

Lemma DeferredBuilds_returned (s : SQSDeferralService Q) (msgs : list Deferral) :
  outcome (DeferredBuilds s) = Returned (msgs, None) ->
  exists n,
    outcome (getVisibleMessagesCount s) = Returned (n, None) /\
    outcome (readBatches (Z.to_nat (readsFor n)) [] (after (getVisibleMessagesCount s)))
      = Returned msgs /\
    events (DeferredBuilds s) =
      events (getVisibleMessagesCount s) ++
      events (readBatches (Z.to_nat (readsFor n)) [] (after (getVisibleMessagesCount s))).
Proof.
  rewrite DeferredBuilds_run. cbv zeta.
  destruct (outcome (getVisibleMessagesCount s)) as [[n [e|]]| |] eqn:Ec; [done| |done..].
  destruct (outcome (readBatches _ _ _)) as [msgs'| |] eqn:Er; [|done..].
  cbn [outcome events]. intros [= ->]. by exists n.
Qed.

Lemma sortByTime_nil : sortByTime [] = [].
Proof. apply Permutation_nil_r, sortByTime_perm. Qed.

(** C2, as the code has it.  The list [DeferredBuilds] returns is built
    batch by batch: the Deferrals parsed from a batch are appended to the
    list so far, and the whole list is sorted by time and de-duplicated
    before the next batch is read.  The result is sorted by time, has no
    two neighbours with the same key, and draws on the parsed messages
    without using any of them twice.  It is the single sort and
    de-duplication over everything parsed when at most one batch was
    answered. *)
Theorem DeferredBuilds_sorts_after_each_batch (s : SQSDeferralService Q)
    (msgs : list Deferral) :
  outcome (DeferredBuilds s) = Returned (msgs, None) ->
  msgs = foldl afterBatch [] (batches (events (DeferredBuilds s))) /\
  StronglySorted TimeLe msgs /\
  no_adjacent_dup msgs /\
  msgs ⊆+ concat (parsedDeferrals <$> batches (events (DeferredBuilds s))) /\
  ((length (batches (events (DeferredBuilds s))) <= 1)%nat ->
   msgs = oneFinalPass (batches (events (DeferredBuilds s)))).
Proof.
  intros Hout.
  apply DeferredBuilds_returned in Hout as (n & Hc & Hr & Hev).
  apply readBatches_returned in Hr. rewrite Hev, batches_app.
  destruct (getVisibleMessagesCount_events s) as (p & a & ->).
  change (batches [EvGetQueueAttributes p a]) with (@nil (list Message.t)).
  rewrite app_nil_l. set (bs := batches _) in *. clearbody bs. subst msgs.
  split; [done|].
  destruct (foldl_afterBatch_sorted bs []) as [Hs Hn];
    [constructor|apply no_adjacent_dup_nil|].
  split; [done|]. split; [done|].
  split; [apply (foldl_afterBatch_submseteq bs [])|].
  intros Hlen. unfold oneFinalPass.
  destruct bs as [|b [|b' bs]]; cbn [foldl fmap list_fmap concat].
  - by rewrite sortByTime_nil.
  - unfold afterBatch. by rewrite app_nil_l, app_nil_r.
  - cbn in Hlen. lia.
Qed.

(** C8.  When the queue reports a count of [n] visible messages and no
    message makes the call panic, [DeferredBuilds] makes exactly
    [ceil(n/10)] receive calls (none when that is not positive), each
    asking for at most ten messages with a visibility timeout of zero. *)
Theorem DeferredBuilds_receive_count (s : SQSDeferralService Q) (n : Z) :
  outcome (getVisibleMessagesCount s) = Returned (n, None) ->
  outcome (DeferredBuilds s) <> Panicked ->
  length (received (events (DeferredBuilds s))) = Z.to_nat (ceilDiv10 n) /\
  10 * (ceilDiv10 n - 1) < n <= 10 * ceilDiv10 n /\
  Forall (fun p => ReceiveMessageInput.MaxNumberOfMessages p = Some 10 /\
                   ReceiveMessageInput.VisibilityTimeout p = Some 0)
    (received (events (DeferredBuilds s))).
Proof.
  intros Hc Hout. rewrite DeferredBuilds_run in Hout |- *. cbv zeta in Hout |- *.
  rewrite Hc in Hout |- *.
  destruct (readBatches_received (Z.to_nat (readsFor n)) []
              (after (getVisibleMessagesCount s))) as (Hall & Hlen & _ & _).
  destruct (getVisibleMessagesCount_events s) as (p & a & Hev).
  assert (received (events (getVisibleMessagesCount s) ++
                    events (readBatches (Z.to_nat (readsFor n)) []
                              (after (getVisibleMessagesCount s))))
          = received (events (readBatches (Z.to_nat (readsFor n)) []
                                (after (getVisibleMessagesCount s))))) as Hrecv.
  { by rewrite received_app, Hev. }
  assert (outcome (readBatches (Z.to_nat (readsFor n)) []
                     (after (getVisibleMessagesCount s))) <> Panicked) as Hnp.
  { intros Hp. by rewrite Hp in Hout. }
  assert (events
            match outcome (readBatches (Z.to_nat (readsFor n)) []
                             (after (getVisibleMessagesCount s))) with
            | Returned msgs =>
                mkRun (Returned (msgs, None))
                  (after (readBatches (Z.to_nat (readsFor n)) []
                            (after (getVisibleMessagesCount s))))
                  (events (getVisibleMessagesCount s) ++
                   events (readBatches (Z.to_nat (readsFor n)) []
                             (after (getVisibleMessagesCount s))))
            | Panicked =>
                mkRun Panicked
                  (after (readBatches (Z.to_nat (readsFor n)) []
                            (after (getVisibleMessagesCount s))))
                  (events (getVisibleMessagesCount s) ++
                   events (readBatches (Z.to_nat (readsFor n)) []
                             (after (getVisibleMessagesCount s))))
            | Blocked =>
                mkRun Blocked
                  (after (readBatches (Z.to_nat (readsFor n)) []
                            (after (getVisibleMessagesCount s))))
                  (events (getVisibleMessagesCount s) ++
                   events (readBatches (Z.to_nat (readsFor n)) []
                             (after (getVisibleMessagesCount s))))
            end
          = events (getVisibleMessagesCount s) ++
            events (readBatches (Z.to_nat (readsFor n)) []
                      (after (getVisibleMessagesCount s)))) as ->.
  { by destruct (outcome (readBatches _ _ _)). }
  rewrite Hrecv. split; [|split].
  - rewrite Hlen by done. by rewrite readsFor_ceil.
  - apply ceilDiv10_bounds.
  - eapply Forall_impl; [exact Hall|]. by intros p' ->.
Qed.

(** C10.  When reading the count of visible messages fails,
    [DeferredBuilds] returns no list and that error wrapped; the only call
    it has made is the one for the queue attributes, so nothing was
    received and nothing deleted.  When the count is 0 it returns the
    empty list and no error, again without a receive or a delete. *)
Theorem DeferredBuilds_without_reads (s : SQSDeferralService Q) :
  (forall n e,
      outcome (getVisibleMessagesCount s) = Returned (n, Some e) ->
      outcome (DeferredBuilds s) =
        Returned ([], Some (Wrapped e "error retrieving number of visible messages" [])) /\
      events (DeferredBuilds s) = events (getVisibleMessagesCount s) /\
      after (DeferredBuilds s) = after (getVisibleMessagesCount s) /\
      received (events (DeferredBuilds s)) = [] /\
      deleted (events (DeferredBuilds s)) = []) /\
  (outcome (getVisibleMessagesCount s) = Returned (0, None) ->
   outcome (DeferredBuilds s) = Returned ([], None) /\
   events (DeferredBuilds s) = events (getVisibleMessagesCount s) /\
   after (DeferredBuilds s) = after (getVisibleMessagesCount s) /\
   received (events (DeferredBuilds s)) = [] /\
   deleted (events (DeferredBuilds s)) = []).
Proof.
  destruct (getVisibleMessagesCount_events s) as (p & a & Hev).
  split.
  - intros n e Hc. rewrite DeferredBuilds_run. cbv zeta. rewrite Hc.
    cbn [outcome after events]. by rewrite Hev.
  - intros Hc. rewrite DeferredBuilds_run. cbv zeta. rewrite Hc.
    change (readBatches (Z.to_nat (readsFor 0)) [] (after (getVisibleMessagesCount s)))
      with (mkRun (Returned (@nil Deferral)) (after (getVisibleMessagesCount s)) []).
    cbn [outcome after events]. by rewrite app_nil_r, Hev.
Qed.

End DeferredBuildsClaims.

(** ** The service on the in-memory queue *)

(** C2, as stated, fails.  With eleven messages stored, the first batch of
    ten is cut down to its earliest Deferral before the second batch brings
    a Deferral for another key; the build stamped 3 is gone by then, while a
    single pass over all eleven would have kept it behind that Deferral. *)
Lemma DeferredBuilds_differs_from_one_final_pass :
  outcome (DeferredBuilds backlogService) = Returned ([sample_a1; sample_b2], None) /\
  oneFinalPass (batches (events (DeferredBuilds backlogService)))
    = [sample_a1; sample_b2; sample_a3].
Proof. split; vm_compute; reflexivity. Qed.

Lemma DeferredBuilds_sorts_after_each_batch_witness :
  outcome (DeferredBuilds backlogService) = Returned ([sample_a1; sample_b2], None) /\
  [sample_a1; sample_b2] = foldl afterBatch [] (batches (events (DeferredBuilds backlogService))).
Proof.
  assert (outcome (DeferredBuilds backlogService) = Returned ([sample_a1; sample_b2], None))
    as Hout by (vm_compute; reflexivity).
  split; [exact Hout|].
  exact (proj1 (DeferredBuilds_sorts_after_each_batch backlogService _ Hout)).
Defined.

(** C3, as stated, fails.  On a queue that fails one call and then works
    again, [Defer] hands the error to its caller after a single
    [SendMessage]; deferring again on the state it left succeeds. *)
Lemma Defer_surfaces_first_failure :
  outcome (Defer 1700000000 "team/lib" "master" "build-7" flakyService)
    = Returned (Some MemQueue.unavailable) /\
  length (sent (events (Defer 1700000000 "team/lib" "master" "build-7" flakyService)))
    = 1%nat /\
  outcome (Defer 1700000000 "team/lib" "master" "build-7"
             (after (Defer 1700000000 "team/lib" "master" "build-7" flakyService)))
    = Returned None.
Proof. repeat split; vm_compute; reflexivity. Qed.

Lemma Resubmit_relays_in_time_order_witness :
  relayed (events (Resubmit mixedService)) = [sample_b3; sample_a5] /\
  UnixTime sample_b3 <= UnixTime sample_a5.
Proof.
  split; [vm_compute; reflexivity|].
  apply (Resubmit_relays_in_time_order mixedService 0 1);
    [lia|vm_compute; reflexivity|vm_compute; reflexivity].
Defined.

Lemma Resubmit_deletes_before_relaying_witness :
  deleted (events (Resubmit mixedService)) = [deleteParams "q" "h5"; deleteParams "q" "h3"] /\
  relayed (events (Resubmit mixedService)) ⊆+ [sample_a5; sample_b3].
Proof.
  destruct (Resubmit_deletes_before_relaying mixedService)
    as (pre & out & Hev & Hrel & _ & Hparsed).
  assert (batches pre = [[message_a5; garbled; message_b3]]) as Hbat.
  { assert (batches (events (Resubmit mixedService)) = [[message_a5; garbled; message_b3]])
      as Hall by (vm_compute; reflexivity).
    by rewrite Hev, batches_app, batches_EvRelay, app_nil_r in Hall. }
  destruct (Hparsed _ Hbat) as (Hdel & _ & Hsub); [vm_compute; discriminate|].
  rewrite Hev, deleted_app, relayed_app, deleted_EvRelay, relayed_EvRelay, Hrel, Hdel.
  rewrite app_nil_r, app_nil_l. split; [vm_compute; reflexivity|exact Hsub].
Defined.

Lemma Defer_then_Resubmit_witness :
  exists d,
    relayed (events (Resubmit (after (Defer 1700000000 "team/lib" "master" "build-7"
                                        freshService)))) = [d] /\
    ProjectKey d = "team/lib" /\ Branch d = "master" /\ BuildID d = "build-7".
Proof.
  apply (Defer_then_Resubmit freshService 1700000000 "team/lib" "master" "build-7" "0").
  - unfold minInt64, maxInt64. lia.
  - vm_compute. discriminate.
  - vm_compute. reflexivity.
Defined.

Lemma Resubmit_skips_unparsable_witness :
  unparsable garbled /\
  deleted (events (Resubmit mixedService)) = [deleteParams "q" "h5"; deleteParams "q" "h3"] /\
  relayed (events (Resubmit mixedService)) = [sample_b3; sample_a5].
Proof.
  assert (unparsable garbled) as Hm.
  { exists "12x", ErrSyntax. split; vm_compute; reflexivity. }
  assert ((ReceiveMessage (receiveParams (queueURL mixedService) None)
             (sqs mixedService)).1 = inr ([message_a5] ++ garbled :: [message_b3])) as Hrecv.
  { vm_compute. reflexivity. }
  destruct (Resubmit_skips_unparsable mixedService [message_a5] [message_b3] garbled
              Hm Hrecv) as (_ & _ & _ & Hd & Hr).
  split; [exact Hm|]. split.
  - rewrite Hd. vm_compute. reflexivity.
  - rewrite Hr. vm_compute. reflexivity.
Defined.

Lemma DeferredBuilds_receive_count_witness :
  outcome (getVisibleMessagesCount backlogService) = Returned (11, None) /\
  length (received (events (DeferredBuilds backlogService))) = 2%nat.
Proof.
  assert (outcome (getVisibleMessagesCount backlogService) = Returned (11, None)) as Hc.
  { vm_compute. reflexivity. }
  split; [exact Hc|].
  apply (DeferredBuilds_receive_count backlogService 11 Hc).
  vm_compute. discriminate.
Defined.

Lemma DeferredBuilds_without_reads_witness :
  outcome (DeferredBuilds flakyService) =
    Returned ([], Some (Wrapped
                          (Wrapped MemQueue.unavailable
                             "%T: Error reading available messages count: %v"
                             [AReceiver; AErr MemQueue.unavailable])
                          "error retrieving number of visible messages" [])) /\
  outcome (DeferredBuilds freshService) = Returned ([], None).
Proof.
  split.
  - apply (proj1 (DeferredBuilds_without_reads flakyService) 0). vm_compute. reflexivity.
  - apply (proj2 (DeferredBuilds_without_reads freshService)). vm_compute. reflexivity.
Defined.

(** * Further properties *)

(** ** More on the de-duplication pass *)

(** Every element scanned has the key held in [last] or is stood for, among
    the elements kept, by one with its key that was scanned no later. *)
Lemma dedup_from_represents (xs : list Deferral) :
  forall last d,
    d ∈ xs ->
    Key d = last \/
    exists d', d' ∈ dedup_from last xs /\ Key d' = Key d /\
               (StronglySorted TimeLe xs -> UnixTime d' <= UnixTime d).
Proof.
  induction xs as [|v xs IH]; intros last d Hd; [by apply elem_of_nil in Hd|].
  apply elem_of_cons in Hd as [->|Hd]; cbn [dedup_from].
  - destruct (decide (Key v <> last)) as [Hne|Heq].
    + right. exists v. split; [apply elem_of_cons; by left|]. split; [done|lia].
    + left. by apply dec_stable in Heq.
  - destruct (decide (Key v <> last)) as [Hne|Heq].
    + right. destruct (IH (Key v) d Hd) as [Hk|(d' & Hin & Hk & Ht)].
      * exists v. split; [apply elem_of_cons; by left|]. split; [done|].
        intros Hs. apply StronglySorted_inv in Hs as [_ Hv].
        rewrite Forall_forall in Hv. by apply Hv.
      * exists d'. split; [apply elem_of_cons; by right|]. split; [done|].
        intros Hs. apply StronglySorted_inv in Hs as [Hs _]. by apply Ht.
    + destruct (IH last d Hd) as [Hk|(d' & Hin & Hk & Ht)]; [by left|].
      right. exists d'. split; [done|]. split; [done|].
      intros Hs. apply StronglySorted_inv in Hs as [Hs _]. by apply Ht.
Qed.

(** X1.  [dedup] loses no key: whatever Deferral goes in, a Deferral with the
    same key comes out, and every Deferral that comes out went in. *)
Theorem dedup_keeps_every_key (xs : list Deferral) (k : string) :
  k ∈ Key <$> dedup xs <-> k ∈ Key <$> xs.
Proof.
  rewrite !list_elem_of_fmap. split.
  - intros (d & -> & Hd). exists d. split; [done|].
    eapply sublist_subseteq; [|exact Hd].
    rewrite dedup_eq. apply dedup_from_sublist.
  - intros (d & -> & Hd).
    destruct (dedup_from_represents xs "" d Hd) as [Hk|(d' & Hin & Hk & _)].
    + by destruct (Key_nonempty d).
    + exists d'. by rewrite dedup_eq.
Qed.

(** X2.  On a list sorted by time, the Deferral that [dedup] keeps for a key
    is not younger than the ones it drops: every Deferral of the list has a
    kept Deferral with its key and a time stamp that is not later. *)
Theorem dedup_keeps_earliest (xs : list Deferral) (d : Deferral) :
  StronglySorted TimeLe xs ->
  d ∈ xs ->
  exists d', d' ∈ dedup xs /\ Key d' = Key d /\ UnixTime d' <= UnixTime d.
Proof.
  intros Hs Hd.
  destruct (dedup_from_represents xs "" d Hd) as [Hk|(d' & Hin & Hk & Ht)].
  - by destruct (Key_nonempty d).
  - exists d'. rewrite dedup_eq. auto.
Qed.

(** X3.  The lists [dedup] leaves unchanged are exactly the lists without
    two neighbours of the same key. *)
Theorem dedup_fixed_point_iff (xs : list Deferral) :
  dedup xs = xs <-> no_adjacent_dup xs.
Proof.
  rewrite dedup_eq. split.
  - intros <-. apply dedup_from_no_adjacent_dup.
  - intros Hadj. apply dedup_from_fixed; [|done].
    intros x _. apply Key_nonempty.
Qed.

Lemma dedup_from_length (xs : list Deferral) :
  forall last, (length (dedup_from last xs) <= length xs)%nat.
Proof.
  induction xs as [|v xs IH]; intros last; cbn [dedup_from length]; [lia|].
  destruct (decide (Key v <> last)); cbn [length].
  - specialize (IH (Key v)). lia.
  - specialize (IH last). lia.
Qed.

(** X4.  [dedup] always keeps the first element and never returns more than
    it was given; in particular it returns the empty list only for the
    empty list. *)
Theorem dedup_head_and_length (xs : list Deferral) :
  head (dedup xs) = head xs /\
  (length (dedup xs) <= length xs)%nat /\
  (dedup xs = [] <-> xs = []).
Proof.
  rewrite dedup_eq. split; [|split].
  - destruct xs as [|v xs]; [done|]. cbn [dedup_from].
    by rewrite decide_True by apply Key_nonempty.
  - apply dedup_from_length.
  - destruct xs as [|v xs]; [done|]. cbn [dedup_from].
    rewrite decide_True by apply Key_nonempty. done.
Qed.

Lemma dedup_from_same_key (xs : list Deferral) (k : string) :
  Forall (fun d => Key d = k) xs -> dedup_from k xs = [].
Proof.
  induction 1 as [|v xs Hv _ IH]; [done|]. cbn [dedup_from].
  by rewrite decide_False by (by intros ?).
Qed.

(** X5.  Deferrals that all carry one key collapse to the first of them. *)
Theorem dedup_same_key_collapses (xs : list Deferral) (k : string) :
  Forall (fun d => Key d = k) xs -> dedup xs = take 1 xs.
Proof.
  intros Hall. rewrite dedup_eq. destruct Hall as [|v xs Hv Hall]; [done|].
  cbn [dedup_from take]. rewrite decide_True by apply Key_nonempty.
  rewrite Hv, (dedup_from_same_key xs k Hall). by rewrite take_0.
Qed.

(** ** More on the loop over the received messages *)

Section MoreOnReadMessages.
Context {Q : Type} `{!SQS Q}.

Lemma parsedMessage_unparsable (m : Message.t) : unparsable m -> parsedMessage m = None.
Proof.
  intros (t & kind & Ht & Hp). unfold parsedMessage. rewrite Ht. cbn. by rewrite Hp.
Qed.

Lemma parsedDeferrals_cons_None (m : Message.t) (ms : list Message.t) :
  parsedMessage m = None ->
  parsedDeferrals (m :: ms) = parsedDeferrals ms /\
  parsedHandles (m :: ms) = parsedHandles ms.
Proof. unfold parsedDeferrals, parsedHandles. cbn. by intros ->. Qed.

Lemma parsedDeferrals_cons_Some (m : Message.t) (ms : list Message.t)
    (d : Deferral) (h : string) :
  parsedMessage m = Some (d, h) ->
  parsedDeferrals (m :: ms) = d :: parsedDeferrals ms /\
  parsedHandles (m :: ms) = h :: parsedHandles ms.
Proof. unfold parsedDeferrals, parsedHandles. cbn. by intros ->. Qed.

Lemma parsedDeferrals_app (pre post : list Message.t) :
  parsedDeferrals (pre ++ post) = parsedDeferrals pre ++ parsedDeferrals post /\
  parsedHandles (pre ++ post) = parsedHandles pre ++ parsedHandles post.
Proof.
  unfold parsedDeferrals, parsedHandles. by rewrite omap_app, !fmap_app.
Qed.

(** On readable messages the loop runs to its end. *)
Lemma readMessages_readable (ms : list Message.t) :
  Forall readable ms ->
  forall msgs (s : SQSDeferralService Q),
    outcome (readMessages ms msgs s) = Returned (msgs ++ parsedDeferrals ms).
Proof.
  induction 1 as [|m ms Hm _ IH]; intros msgs s.
  { cbn. by rewrite app_nil_r. }
  destruct Hm as [Hm|[[d h] Hm]].
  - destruct (parsedDeferrals_cons_None m ms (parsedMessage_unparsable m Hm)) as [-> _].
    destruct Hm as (t & kind & Ht & Hp).
    rewrite readMessages_cons, Ht, Hp. cbn [prefixed outcome]. apply IH.
  - destruct (parsedDeferrals_cons_Some m ms d h Hm) as [-> _].
    rewrite (readMessages_parsed m d h ms msgs s Hm). cbv zeta.
    cbn [prefixed outcome]. rewrite IH. by rewrite <- app_assoc.
Qed.

(** On a breaking message the loop panics before any effect. *)
Lemma readMessages_breaking (m : Message.t) (rest : list Message.t)
    (msgs : list Deferral) (s : SQSDeferralService Q) :
  breaking m -> readMessages (m :: rest) msgs s = mkRun Panicked s [].
Proof.
  intros [Ht|(t & u & Ht & Hp & Hm)]; rewrite readMessages_cons, Ht; [done|].
  by rewrite Hp, Hm.
Qed.

(** A message is readable or breaking, never both. *)
Lemma readable_or_breaking (m : Message.t) :
  (readable m \/ breaking m) /\ ~ (readable m /\ breaking m).
Proof.
  unfold readable, breaking, unparsable. split.
  - destruct (stringAttr m "unixtime") as [t|] eqn:Et; [|right; by left].
    destruct (ParseInt t) as [kind|u] eqn:Ep; [left; left; eauto|].
    destruct (parsedMessage m) as [p|] eqn:Em; [left; right; eauto|].
    right. right. eauto.
  - intros [[(t & kind & Ht & Hp)|[p Hm]] [Hn|(t' & u & Ht' & Hp' & Hm')]];
      try congruence.
    unfold parsedMessage in Hm. by rewrite Hn in Hm.
Qed.

Lemma readMessages_panics_midway (pre post : list Message.t) (m : Message.t) :
  Forall readable pre -> breaking m ->
  forall msgs (s : SQSDeferralService Q),
    outcome (readMessages (pre ++ m :: post) msgs s) = Panicked /\
    deleted (events (readMessages (pre ++ m :: post) msgs s))
      = deleteParams (queueURL s) <$> parsedHandles pre.
Proof.
  intros Hpre Hm msgs s. rewrite readMessages_app, bind_eq.
  pose proof (readMessages_readable pre Hpre msgs s) as Hout.
  rewrite Hout. rewrite readMessages_breaking by done.
  cbn [prefixed outcome events]. rewrite app_nil_r. split; [done|].
  by apply readMessages_returned in Hout as [_ ->].
Qed.

(** Every event of the loop is a delete request for the service's queue or
    a log line, and there is at most one delete per message. *)
Lemma readMessages_events (ms : list Message.t) :
  forall msgs (s : SQSDeferralService Q),
    Forall (fun e => (exists h r, e = EvDeleteMessage (deleteParams (queueURL s) h) r) \/
                     (exists f a, e = EvLog f a))
      (events (readMessages ms msgs s)) /\
    (length (deleted (events (readMessages ms msgs s))) <= length ms)%nat.
Proof.
  induction ms as [|m ms IH]; intros msgs s; [by split; [constructor|]|].
  rewrite readMessages_cons.
  destruct (stringAttr m "unixtime") as [t|]; [|by split; [constructor|cbn; lia]].
  destruct (ParseInt t) as [k|u].
  { destruct (IH msgs s) as [Hall Hlen]. cbn [prefixed events]. split.
    - apply Forall_app. split; [|done]. constructor; [|constructor]. right. eauto.
    - rewrite deleted_app. cbn [length] in *.
      change (deleted [EvLog _ _]) with (@nil DeleteMessageInput.t). cbn. lia. }
  destruct (parsedMessage m) as [[d h]|]; [|by split; [constructor|cbn; lia]].
  cbv zeta. set (r := DeleteMessage _ _).
  destruct (IH (msgs ++ [d]) (mkService r.2 (queueURL s) (relay s))) as [Hall Hlen].
  cbn [queueURL] in Hall. cbn [prefixed events]. split.
  - apply Forall_app. split; [|done]. apply Forall_app. split.
    + constructor; [|constructor]. left. eauto.
    + unfold deleteLog. destruct (errors_Wrap _ _ _); [|constructor].
      constructor; [|constructor]. right. eauto.
  - rewrite !deleted_app. destruct (deleteLog_quiet h r.1) as (_ & -> & _).
    change (deleted [EvDeleteMessage _ _]) with [deleteParams (queueURL s) h].
    cbn [length app] in *. lia.
Qed.

End MoreOnReadMessages.

(** ** More on Resubmit *)

Lemma calls_app (a b : list Event) : calls (a ++ b) = calls a ++ calls b.
Proof. apply omap_app. Qed.

Lemma calls_EvRelay (l : list Deferral) : calls (EvRelay <$> l) = [].
Proof. by induction l. Qed.

Lemma calls_deletes_and_logs (tr : list Event) :
  Forall (fun e => (exists p r, e = EvDeleteMessage p r) \/ (exists f a, e = EvLog f a)) tr ->
  calls tr = replicate (length (deleted tr)) CallDeleteMessage.
Proof.
  induction 1 as [|e tr [(p & r & ->)|(f & a & ->)] _ IH]; [done| |].
  - change (calls (EvDeleteMessage p r :: tr)) with (CallDeleteMessage :: calls tr).
    change (deleted (EvDeleteMessage p r :: tr)) with (p :: deleted tr).
    cbn [length replicate]. by rewrite IH.
  - exact IH.
Qed.

Lemma dedup_distinct_keys (l : list Deferral) : NoDup (Key <$> l) -> dedup l = l.
Proof.
  intros Hnd. rewrite dedup_eq. apply dedup_from_fixed.
  - intros x _. apply Key_nonempty.
  - intros i x y Hx Hy Hk.
    assert (i = S i); [|lia].
    apply (NoDup_lookup (Key <$> l) i (S i) (Key x)); [done| |].
    + by rewrite list_lookup_fmap, Hx.
    + by rewrite list_lookup_fmap, Hy, Hk.
Qed.

Section MoreOnResubmit.
Context {Q : Type} `{!SQS Q} `{!TimeSort}.

Lemma dedup_sort_length (l : list Deferral) :
  (length (dedup (sortByTime l)) <= length l)%nat.
Proof.
  rewrite dedup_eq. etrans; [apply dedup_from_length|].
  by rewrite (Permutation_length (sortByTime_perm l)).
Qed.

Lemma Resubmit_batch (s : SQSDeferralService Q) (ms : list Message.t) :
  (ReceiveMessage (receiveParams (queueURL s) None) (sqs s)).1 = inr ms ->
  Resubmit s =
  prefixed [EvReceiveMessage (receiveParams (queueURL s) None) (inr ms)]
    (relayBatch ms
       (mkService (ReceiveMessage (receiveParams (queueURL s) None) (sqs s)).2
          (queueURL s) (relay s))).
Proof. intros Hrecv. rewrite Resubmit_run. cbv zeta. by rewrite Hrecv. Qed.

(** X6.  When every received message is readable (its time stamp fails to
    parse, or all its attributes and its handle are there), [Resubmit] does
    not panic: it requests the delete of each parsed message, sends the
    sorted and de-duplicated Deferrals for as long as the relay channel
    takes them, and returns if the channel took them all and stays blocked
    otherwise. *)
Theorem Resubmit_on_readable_batch (s : SQSDeferralService Q) (ms : list Message.t) :
  (ReceiveMessage (receiveParams (queueURL s) None) (sqs s)).1 = inr ms ->
  Forall readable ms ->
  outcome (Resubmit s) =
    (if decide (length (dedup (sortByTime (parsedDeferrals ms))) <= relay s)%nat
     then Returned tt else Blocked) /\
  relayed (events (Resubmit s)) = take (relay s) (dedup (sortByTime (parsedDeferrals ms))) /\
  deleted (events (Resubmit s)) = deleteParams (queueURL s) <$> parsedHandles ms /\
  relay (after (Resubmit s))
    = (relay s - length (dedup (sortByTime (parsedDeferrals ms))))%nat.
Proof.
  intros Hrecv Hms. rewrite (Resubmit_batch s ms Hrecv).
  set (s1 := mkService _ _ _).
  pose proof (readMessages_readable ms Hms [] s1) as Hout. rewrite app_nil_l in Hout.
  pose proof (readMessages_returned ms [] s1 _ Hout) as [_ Hdel].
  pose proof (readMessages_shape ms [] s1) as (_ & _ & _ & _ & Hroom & _).
  cbn [prefixed outcome after events].
  rewrite relayed_app, deleted_app, relayBatch_outcome, relayBatch_relayed,
    relayBatch_events, relayBatch_after, deleted_app, deleted_EvRelay, Hout, Hdel.
  cbn [withRelay relay]. by rewrite app_nil_r.
Qed.

(** X7.  When a received message lacks an attribute the loop dereferences,
    [Resubmit] panics at that message: the deletes of the parsed messages
    in front of it have been requested by then, and nothing is sent on the
    relay channel, so those Deferrals are gone from the queue without
    having been relayed. *)
Theorem Resubmit_panics_after_deleting (s : SQSDeferralService Q)
    (pre post : list Message.t) (m : Message.t) :
  (ReceiveMessage (receiveParams (queueURL s) None) (sqs s)).1 = inr (pre ++ m :: post) ->
  Forall readable pre ->
  breaking m ->
  outcome (Resubmit s) = Panicked /\
  relayed (events (Resubmit s)) = [] /\
  deleted (events (Resubmit s)) = deleteParams (queueURL s) <$> parsedHandles pre.
Proof.
  intros Hrecv Hpre Hm. rewrite (Resubmit_batch s _ Hrecv).
  set (s1 := mkService _ _ _).
  destruct (readMessages_panics_midway pre post m Hpre Hm [] s1) as [Hout Hdel].
  cbn [prefixed outcome after events].
  rewrite relayed_app, deleted_app, relayBatch_outcome, relayBatch_relayed,
    relayBatch_events, deleted_app, deleted_EvRelay, Hout, Hdel, !app_nil_r.
  split; [done|]. split; reflexivity.
Qed.

(** X8.  A delete that fails costs a log line and nothing else: the
    Deferral of the message is sent on the relay channel all the same. *)
Theorem Resubmit_relays_despite_failed_delete (s : SQSDeferralService Q)
    (m : Message.t) (d : Deferral) (h : string) (e : error) :
  (ReceiveMessage (receiveParams (queueURL s) None) (sqs s)).1 = inr [m] ->
  parsedMessage m = Some (d, h) ->
  (DeleteMessage (deleteParams (queueURL s) h)
     (ReceiveMessage (receiveParams (queueURL s) None) (sqs s)).2).1 = Some e ->
  relay s <> 0%nat ->
  outcome (Resubmit s) = Returned tt /\
  events (Resubmit s) =
    [ EvReceiveMessage (receiveParams (queueURL s) None) (inr [m]);
      EvDeleteMessage (deleteParams (queueURL s) h) (Some e);
      EvLog "Error deleting message %s: %v\n"
        [AStr h; AErr (Wrapped e "Failed to delete message" [])];
      EvRelay d ].
Proof.
  intros Hrecv Hm Hdel Hroom. rewrite (Resubmit_batch s _ Hrecv).
  set (s1 := mkService _ _ _).
  assert (readMessages [m] [] s1 =
          mkRun (Returned [d])
            (mkService (DeleteMessage (deleteParams (queueURL s) h) (sqs s1)).2
               (queueURL s) (relay s))
            [EvDeleteMessage (deleteParams (queueURL s) h) (Some e);
             EvLog "Error deleting message %s: %v\n"
               [AStr h; AErr (Wrapped e "Failed to delete message" [])]]) as Hread.
  { rewrite (readMessages_parsed m d h [] [] s1 Hm). cbv zeta.
    subst s1. cbn [sqs queueURL relay]. rewrite Hdel. reflexivity. }
  cbn [prefixed outcome events].
  rewrite relayBatch_outcome, relayBatch_events, Hread. cbn [outcome events relay].
  rewrite sortByTime_singleton, dedup_singleton.
  destruct (relay s) as [|room]; [done|]. split; [done|].
  destruct room; reflexivity.
Qed.

(** X9.  When the received Deferrals have pairwise different keys and the
    relay channel takes them all, [Resubmit] relays every one of them, in
    the order [sort.Sort] gives. *)
Theorem Resubmit_distinct_keys (s : SQSDeferralService Q) (ms : list Message.t) :
  (ReceiveMessage (receiveParams (queueURL s) None) (sqs s)).1 = inr ms ->
  Forall readable ms ->
  NoDup (Key <$> parsedDeferrals ms) ->
  (length (parsedDeferrals ms) <= relay s)%nat ->
  relayed (events (Resubmit s)) = sortByTime (parsedDeferrals ms) /\
  relayed (events (Resubmit s)) ≡ₚ parsedDeferrals ms.
Proof.
  intros Hrecv Hms Hnd Hroom. rewrite (Resubmit_batch s ms Hrecv).
  set (s1 := mkService _ _ _).
  pose proof (readMessages_readable ms Hms [] s1) as Hout. rewrite app_nil_l in Hout.
  cbn [prefixed events].
  rewrite relayed_app, relayBatch_relayed, Hout, app_nil_l. cbn [relay].
  rewrite dedup_distinct_keys by (by rewrite (sortByTime_perm (parsedDeferrals ms))).
  rewrite take_ge by (by rewrite (Permutation_length (sortByTime_perm _))).
  split; [done|apply sortByTime_perm].
Qed.

(** X10.  When the relay channel takes whatever comes, every parsed message
    is stood for on it: a Deferral with the same key and a time stamp that
    is not later is relayed. *)
Theorem Resubmit_relays_a_representative (s : SQSDeferralService Q)
    (ms : list Message.t) (d : Deferral) :
  (ReceiveMessage (receiveParams (queueURL s) None) (sqs s)).1 = inr ms ->
  Forall readable ms ->
  (length (parsedDeferrals ms) <= relay s)%nat ->
  d ∈ parsedDeferrals ms ->
  exists d',
    d' ∈ relayed (events (Resubmit s)) /\ Key d' = Key d /\ UnixTime d' <= UnixTime d.
Proof.
  intros Hrecv Hms Hroom Hd. rewrite (Resubmit_batch s ms Hrecv).
  set (s1 := mkService _ _ _).
  pose proof (readMessages_readable ms Hms [] s1) as Hout. rewrite app_nil_l in Hout.
  cbn [prefixed events].
  rewrite relayed_app, relayBatch_relayed, Hout, app_nil_l. cbn [relay].
  rewrite take_ge by (etrans; [apply dedup_sort_length|done]).
  destruct (dedup_from_represents (sortByTime (parsedDeferrals ms)) "" d)
    as [Hk|(d' & Hin & Hk & Ht)].
  - by rewrite (sortByTime_perm (parsedDeferrals ms)).
  - by destruct (Key_nonempty d).
  - exists d'. rewrite dedup_eq. split; [done|]. split; [done|].
    apply Ht, sortByTime_sorted.
Qed.

(** X11.  The calls [Resubmit] makes on the queue are one receive followed
    by deletes only, at most one for each message received: it never sends
    a message, asks for queue attributes or creates a queue. *)
Theorem Resubmit_calls (s : SQSDeferralService Q) :
  calls (events (Resubmit s)) =
    CallReceiveMessage ::
      replicate (length (deleted (events (Resubmit s)))) CallDeleteMessage /\
  (length (deleted (events (Resubmit s)))
     <= length (concat (batches (events (Resubmit s)))))%nat.
Proof.
  rewrite Resubmit_run. cbv zeta.
  set (rp := receiveParams (queueURL s) None).
  set (a := ReceiveMessage rp (sqs s)).
  set (s1 := mkService a.2 (queueURL s) (relay s)).
  destruct a.1 as [err|ms]; [by split|].
  cbn [prefixed events].
  rewrite calls_app, deleted_app, batches_app, relayBatch_events.
  rewrite calls_app, deleted_app, batches_app, calls_EvRelay, deleted_EvRelay,
    batches_EvRelay, !app_nil_r.
  destruct (readMessages_events ms [] s1) as [Hall Hlen].
  destruct (readMessages_shape ms [] s1) as (_ & _ & -> & _).
  change (calls [EvReceiveMessage rp (inr ms)]) with [CallReceiveMessage].
  change (deleted [EvReceiveMessage rp (inr ms)]) with (@nil DeleteMessageInput.t).
  change (batches [EvReceiveMessage rp (inr ms)]) with [ms].
  cbn [app concat]. rewrite app_nil_r. split; [|done].
  f_equal. apply calls_deletes_and_logs.
  eapply Forall_impl; [exact Hall|]. intros e [(h & r & ->)|?]; eauto.
Qed.

End MoreOnResubmit.

(** ** More on Defer and on the constructor *)

Section MoreOnDefer.
Context {Q : Type} `{!SQS Q}.

(** X12.  What [Defer] sends is read back in full: the one message it
    sends carries the build ID as its de-duplication token, and a received
    message with its attributes is parsed by the receive loop into the
    Deferral with the project key, branch and build ID given to [Defer] and
    the time of the call. *)
Theorem Defer_message_round_trip (s : SQSDeferralService Q) (now : Z)
    (projectKey branch buildID : string) :
  minInt64 <= now <= maxInt64 ->
  exists p,
    sent (events (Defer now projectKey branch buildID s)) = [p] /\
    SendMessageInput.MessageDeduplicationId p = Some buildID /\
    forall handle,
      parsedMessage (Message.mk (SendMessageInput.MessageAttributes p) (Some handle))
      = Some (mkDeferral projectKey branch buildID now, handle).
Proof.
  intros Hnow. rewrite Defer_run. cbv zeta. eexists. split; [reflexivity|].
  split; [done|]. intros handle. by apply parsedMessage_deferred.
Qed.

Lemma createQueue_run (queueName : string) (s : SQSDeferralService Q) :
  createQueue queueName s =
  let p := CreateQueueInput.mk (Some queueName) in
  let a := CreateQueue p (sqs s) in
  let s1 := mkService a.2 (queueURL s) (relay s) in
  match a.1 with
  | inl err =>
      mkRun (Returned ("", Some (Wrapped err "%T: Error creating queue: %s"
                                   [AErr err; AStr queueName])))
        s1 [EvCreateQueue p a.1]
  | inr None => mkRun Panicked s1 [EvCreateQueue p a.1]
  | inr (Some url) => mkRun (Returned (url, None)) s1 [EvCreateQueue p a.1]
  end.
Proof.
  unfold createQueue. rewrite bind_eq, call_run. cbn [outcome after events]. cbv zeta.
  destruct (CreateQueue _ _).1 as [err|[url|]]; reflexivity.
Qed.

(** X13.  [NewSQSDeferralService] makes one call, [CreateQueue] with the
    given name.  When that fails it returns the error, wrapped twice, and no
    service; when the answer has no queue URL it panics; otherwise the
    service it returns keeps the URL of the answer, and that is the queue
    [Defer] then sends to. *)
Theorem NewSQSDeferralService_queue_url (queueName : string) (q : Q) (r : nat) :
  let p := CreateQueueInput.mk (Some queueName) in
  let made := NewSQSDeferralService queueName q r in
  events made = [EvCreateQueue p (CreateQueue p q).1] /\
  sqs (after made) = (CreateQueue p q).2 /\
  relay (after made) = r /\
  match (CreateQueue p q).1 with
  | inl err =>
      outcome made =
        Returned (Some (ErrCreating
                          (Wrapped err "%T: Error creating queue: %s"
                             [AErr err; AStr queueName])
                          queueName))
  | inr None => outcome made = Panicked
  | inr (Some url) =>
      outcome made = Returned None /\
      queueURL (after made) = url /\
      forall now projectKey branch buildID,
        SendMessageInput.QueueUrl <$>
          sent (events (Defer now projectKey branch buildID (after made)))
        = [Some url]
  end.
Proof.
  cbv zeta. unfold NewSQSDeferralService. rewrite createQueue_run. cbv zeta.
  cbn [sqs queueURL relay].
  destruct (CreateQueue _ q).1 as [err|[url|]]; cbn [outcome after events sqs relay queueURL];
    repeat split.
  intros now projectKey branch buildID. by rewrite Defer_run.
Qed.

End MoreOnDefer.

(** ** More on DeferredBuilds *)

Section MoreOnDeferredBuilds.
Context {Q : Type} `{!SQS Q} `{!TimeSort}.

Lemma toQueue_readMessages (ms : list Message.t) (msgs : list Deferral)
    (s : SQSDeferralService Q) :
  Forall (toQueue (queueURL s)) (events (readMessages ms msgs s)).
Proof.
  destruct (readMessages_events ms msgs s) as [Hall _].
  eapply Forall_impl; [exact Hall|].
  intros e [(h & r & ->)|(f & a & ->)] u; cbn; by intros [= <-].
Qed.

Lemma toQueue_EvRelay (url : string) (l : list Deferral) :
  Forall (toQueue url) (EvRelay <$> l).
Proof. induction l; constructor; [by intros u|done]. Qed.

(** The paging loop: what its events are, and what it leaves alone. *)
Lemma readBatches_events (reads : nat) :
  forall msgs (s : SQSDeferralService Q),
    Forall (toQueue (queueURL s)) (events (readBatches reads msgs s)) /\
    Forall (fun c => c = CallReceiveMessage \/ c = CallDeleteMessage)
      (calls (events (readBatches reads msgs s))) /\
    queueURL (after (readBatches reads msgs s)) = queueURL s /\
    relay (after (readBatches reads msgs s)) = relay s.
Proof.
  induction reads as [|reads IH]; intros msgs s; [by repeat split; constructor|].
  rewrite readBatches_S. cbv zeta.
  set (rp := receiveParams (queueURL s) (Some 0)).
  set (a := ReceiveMessage rp (sqs s)).
  set (s1 := mkService a.2 (queueURL s) (relay s)).
  assert (forall r, toQueue (queueURL s) (EvReceiveMessage rp r)) as Hrp.
  { intros r u. cbn. by intros [= <-]. }
  destruct a.1 as [err|ms].
  - destruct (IH msgs s1) as (Hq & Hc & Hurl & Hrel).
    cbn [prefixed after events]. rewrite !calls_app.
    split; [|split; [|done]].
    + constructor; [apply Hrp|]. constructor; [by intros u|done].
    + constructor; [by left|done].
  - rewrite bind_eq.
    pose proof (toQueue_readMessages ms msgs s1) as Hq1.
    destruct (readMessages_events ms msgs s1) as [Hev1 _].
    pose proof (readMessages_shape ms msgs s1) as (_ & _ & _ & Hurl1 & Hrel1 & _).
    change (queueURL s1) with (queueURL s) in Hurl1.
    change (relay s1) with (relay s) in Hrel1.
    assert (Forall (fun c => c = CallReceiveMessage \/ c = CallDeleteMessage)
              (calls (events (readMessages ms msgs s1)))) as Hc1.
    { rewrite calls_deletes_and_logs.
      - apply Forall_replicate. by right.
      - eapply Forall_impl; [exact Hev1|]. intros e [(h & r & ->)|?]; eauto. }
    destruct (outcome (readMessages ms msgs s1)) as [msgs1| |];
      cbn [prefixed after events]; rewrite ?calls_app.
    + destruct (IH (dedup (sortByTime msgs1)) (after (readMessages ms msgs s1)))
        as (Hq & Hc & Hurl & Hrel).
      rewrite Hurl1 in Hq.
      split; [|split; [|split; congruence]].
      * constructor; [apply Hrp|]. by apply Forall_app.
      * constructor; [by left|]. by apply Forall_app.
    + split; [by constructor|]. split; [by constructor; [left|]|done].
    + split; [by constructor|]. split; [by constructor; [left|]|done].
Qed.

Lemma readBatches_deleted (reads : nat) :
  forall msgs (s : SQSDeferralService Q) msgs',
    outcome (readBatches reads msgs s) = Returned msgs' ->
    deleted (events (readBatches reads msgs s)) =
    deleteParams (queueURL s) <$>
      concat (parsedHandles <$> batches (events (readBatches reads msgs s))).
Proof.
  induction reads as [|reads IH]; intros msgs s msgs'; [done|].
  rewrite readBatches_S. cbv zeta.
  set (rp := receiveParams (queueURL s) (Some 0)).
  set (a := ReceiveMessage rp (sqs s)).
  set (s1 := mkService a.2 (queueURL s) (relay s)).
  destruct a.1 as [err|ms].
  - cbn [prefixed outcome events]. intros Hout. apply IH in Hout.
    rewrite !deleted_app, !batches_app, Hout. reflexivity.
  - rewrite bind_eq.
    pose proof (readMessages_shape ms msgs s1) as (_ & _ & Hbat & Hurl & _).
    destruct (outcome (readMessages ms msgs s1)) as [msgs1| |] eqn:Eo; [|done..].
    apply readMessages_returned in Eo as [_ Hdel].
    cbn [prefixed outcome events]. intros Hout. apply IH in Hout.
    rewrite Hurl in Hout.
    rewrite !deleted_app, !batches_app, Hbat, Hout, Hdel.
    change (batches [EvReceiveMessage rp (inr ms)]) with [ms].
    change (deleted [EvReceiveMessage rp (inr ms)]) with (@nil DeleteMessageInput.t).
    cbn [app fmap list_fmap concat]. by rewrite fmap_app.
Qed.

(** X14.  [DeferredBuilds] is not a read-only listing: when it returns a
    list, it has requested the delete of every message it parsed, batch
    after batch, in the order it read them. *)
Theorem DeferredBuilds_deletes_what_it_reads (s : SQSDeferralService Q)
    (msgs : list Deferral) :
  outcome (DeferredBuilds s) = Returned (msgs, None) ->
  deleted (events (DeferredBuilds s)) =
  deleteParams (queueURL s) <$>
    concat (parsedHandles <$> batches (events (DeferredBuilds s))).
Proof.
  intros Hout. apply DeferredBuilds_returned in Hout as (n & Hc & Hr & ->).
  apply readBatches_deleted in Hr.
  destruct (getVisibleMessagesCount_events s) as (p & a & Hev).
  rewrite deleted_app, batches_app, Hev, Hr.
  assert (queueURL (after (getVisibleMessagesCount s)) = queueURL s) as ->; [|done].
  rewrite getVisibleMessagesCount_run. cbv zeta.
  destruct (GetQueueAttributes _ _).1 as [err|attrs]; [done|].
  destruct (attrs !! _) as [v|]; [|done]. by destruct (Atoi v).
Qed.

End MoreOnDeferredBuilds.

Section MoreOnDeferredBuildsRuns.
Context {Q : Type} `{!SQS Q} `{!TimeSort}.

Lemma getVisibleMessagesCount_after (s : SQSDeferralService Q) :
  queueURL (after (getVisibleMessagesCount s)) = queueURL s /\
  relay (after (getVisibleMessagesCount s)) = relay s /\
  events (getVisibleMessagesCount s) =
    [EvGetQueueAttributes
       (GetQueueAttributesInput.mk (Some (queueURL s)) [Some "ApproximateNumberOfMessages"])
       (GetQueueAttributes
          (GetQueueAttributesInput.mk (Some (queueURL s))
             [Some "ApproximateNumberOfMessages"]) (sqs s)).1].
Proof.
  rewrite getVisibleMessagesCount_run. cbv zeta.
  destruct (GetQueueAttributes _ _).1 as [err|attrs]; [done|].
  destruct (attrs !! _) as [v|]; [|done]. by destruct (Atoi v).
Qed.

Lemma getVisibleMessagesCount_not_blocked (s : SQSDeferralService Q) :
  outcome (getVisibleMessagesCount s) <> Blocked.
Proof.
  rewrite getVisibleMessagesCount_run. cbv zeta.
  destruct (GetQueueAttributes _ _).1 as [err|attrs]; [done|].
  destruct (attrs !! _) as [v|]; [|done]. by destruct (Atoi v).
Qed.

(** What a run of [DeferredBuilds] consists of: the count and, when the
    count was read, the paging loop. *)
Lemma DeferredBuilds_parts (s : SQSDeferralService Q) :
  (events (DeferredBuilds s) = events (getVisibleMessagesCount s) /\
   after (DeferredBuilds s) = after (getVisibleMessagesCount s) /\
   outcome (DeferredBuilds s) <> Blocked) \/
  (exists n,
     outcome (getVisibleMessagesCount s) = Returned (n, None) /\
     events (DeferredBuilds s) =
       events (getVisibleMessagesCount s) ++
       events (readBatches (Z.to_nat (readsFor n)) [] (after (getVisibleMessagesCount s))) /\
     after (DeferredBuilds s) =
       after (readBatches (Z.to_nat (readsFor n)) [] (after (getVisibleMessagesCount s))) /\
     (outcome (DeferredBuilds s) = Blocked ->
      outcome (readBatches (Z.to_nat (readsFor n)) []
                 (after (getVisibleMessagesCount s))) = Blocked)).
Proof.
  pose proof (getVisibleMessagesCount_not_blocked s) as Hnb.
  rewrite DeferredBuilds_run. cbv zeta.
  destruct (outcome (getVisibleMessagesCount s)) as [[n [e|]]| |] eqn:Ec;
    [by left| |by left..].
  right. exists n. split; [done|].
  by destruct (outcome (readBatches _ _ _)).
Qed.

(** X15.  The calls [DeferredBuilds] makes on the queue are one for the
    queue attributes and then receives and deletes only.  It never sends
    on the relay channel, so it cannot block, and it leaves the channel and
    the queue URL as they were. *)
Theorem DeferredBuilds_calls (s : SQSDeferralService Q) :
  (exists rest,
     calls (events (DeferredBuilds s)) = CallGetQueueAttributes :: rest /\
     Forall (fun c => c = CallReceiveMessage \/ c = CallDeleteMessage) rest) /\
  relayed (events (DeferredBuilds s)) = [] /\
  outcome (DeferredBuilds s) <> Blocked /\
  relay (after (DeferredBuilds s)) = relay s /\
  queueURL (after (DeferredBuilds s)) = queueURL s.
Proof.
  destruct (getVisibleMessagesCount_after s) as (Hurl & Hrel & Hev).
  destruct (DeferredBuilds_parts s) as [(-> & -> & Hn)|(n & Hc & -> & -> & Hblk)].
  - rewrite Hev. split; [exists []; by split|]. done.
  - destruct (readBatches_events (Z.to_nat (readsFor n)) []
                (after (getVisibleMessagesCount s))) as (_ & Hcalls & Hurl' & Hrel').
    destruct (readBatches_received (Z.to_nat (readsFor n)) []
                (after (getVisibleMessagesCount s))) as (_ & _ & Hrelayed & Hnb).
    rewrite Hev, calls_app, relayed_app, Hrelayed.
    split; [eexists; split; [reflexivity|done]|].
    split; [done|]. split; [by intros Hb; apply Hnb, Hblk|].
    split; congruence.
Qed.

(** X16.  The only error [DeferredBuilds] ever returns is the one of the
    count, and then it returns no Deferral.  Once the count is read, receive
    calls that fail are logged and passed over: with no receive answered,
    the list returned is empty and the error nil. *)
Theorem DeferredBuilds_error_only_for_count (s : SQSDeferralService Q)
    (msgs : list Deferral) (err : option error) :
  outcome (DeferredBuilds s) = Returned (msgs, err) ->
  match err with
  | Some e =>
      msgs = [] /\
      exists n e0,
        outcome (getVisibleMessagesCount s) = Returned (n, Some e0) /\
        e = Wrapped e0 "error retrieving number of visible messages" []
  | None =>
      (exists n, outcome (getVisibleMessagesCount s) = Returned (n, None)) /\
      (batches (events (DeferredBuilds s)) = [] -> msgs = [])
  end.
Proof.
  destruct err as [e|].
  - rewrite DeferredBuilds_run. cbv zeta.
    destruct (outcome (getVisibleMessagesCount s)) as [[n [e0|]]| |]; [| |done..].
    + cbn [outcome]. intros [= <- <-]. split; [done|]. by exists n, e0.
    + by destruct (outcome (readBatches _ _ _)).
  - intros Hout.
    pose proof (DeferredBuilds_returned s msgs Hout) as (n & Hc & Hr & Hev).
    split; [by exists n|]. intros Hbat.
    apply readBatches_returned in Hr.
    destruct (getVisibleMessagesCount_events s) as (p & a & Hev').
    rewrite Hev, batches_app, Hev' in Hbat. cbn [app] in Hbat.
    change (batches [EvGetQueueAttributes p a]) with (@nil (list Message.t)) in Hbat.
    rewrite app_nil_l in Hbat. by rewrite Hr, Hbat.
Qed.

(** X17.  The count at the edges.  An answer without the
    [ApproximateNumberOfMessages] attribute makes [DeferredBuilds] panic;
    a value that is no integer comes back as the [Atoi] error wrapped once;
    a count of zero or less gives the empty list and no error.  In all three
    cases the call for the attributes is the only call made. *)
Theorem DeferredBuilds_count_edges (s : SQSDeferralService Q)
    (attributes : gmap string string) :
  (GetQueueAttributes
     (GetQueueAttributesInput.mk (Some (queueURL s)) [Some "ApproximateNumberOfMessages"])
     (sqs s)).1 = inr attributes ->
  match attributes !! "ApproximateNumberOfMessages" with
  | None =>
      outcome (DeferredBuilds s) = Panicked /\
      calls (events (DeferredBuilds s)) = [CallGetQueueAttributes]
  | Some v =>
      match Atoi v with
      | inl kind =>
          outcome (DeferredBuilds s) =
            Returned ([], Some (Wrapped (NumError "Atoi" v kind)
                                  "error retrieving number of visible messages" [])) /\
          calls (events (DeferredBuilds s)) = [CallGetQueueAttributes]
      | inr n =>
          n <= 0 ->
          outcome (DeferredBuilds s) = Returned ([], None) /\
          calls (events (DeferredBuilds s)) = [CallGetQueueAttributes]
      end
  end.
Proof.
  intros Ha. rewrite DeferredBuilds_run. cbv zeta.
  rewrite getVisibleMessagesCount_run. cbv zeta. rewrite Ha.
  destruct (attributes !! "ApproximateNumberOfMessages") as [v|]; [|done].
  destruct (Atoi v) as [kind|n]; [done|].
  intros Hn. cbn [outcome after events].
  assert (Z.to_nat (readsFor n) = 0%nat) as ->.
  { rewrite readsFor_ceil. pose proof (ceilDiv10_bounds n). lia. }
  done.
Qed.

Lemma afterBatch_distinct_keys (msgs : list Deferral) (b : list Message.t) :
  NoDup (Key <$> (msgs ++ parsedDeferrals b)) ->
  afterBatch msgs b ≡ₚ msgs ++ parsedDeferrals b.
Proof.
  intros Hnd. unfold afterBatch.
  rewrite dedup_distinct_keys by (by rewrite (sortByTime_perm _)).
  apply sortByTime_perm.
Qed.

Lemma foldl_afterBatch_distinct_keys (bs : list (list Message.t)) :
  forall msgs,
    NoDup (Key <$> (msgs ++ concat (parsedDeferrals <$> bs))) ->
    foldl afterBatch msgs bs ≡ₚ msgs ++ concat (parsedDeferrals <$> bs).
Proof.
  induction bs as [|b bs IH]; intros msgs Hnd; cbn [foldl fmap list_fmap concat] in *.
  { by rewrite app_nil_r. }
  rewrite app_assoc in Hnd |- *.
  assert (afterBatch msgs b ≡ₚ msgs ++ parsedDeferrals b) as Hperm.
  { apply afterBatch_distinct_keys.
    rewrite fmap_app in Hnd. by apply NoDup_app in Hnd as (? & _ & _). }
  rewrite IH; [by rewrite Hperm|]. by rewrite Hperm.
Qed.

(** X18.  When no two of the parsed messages share a key, nothing is
    dropped: [DeferredBuilds] returns every parsed Deferral exactly once,
    sorted by time. *)
Theorem DeferredBuilds_distinct_keys (s : SQSDeferralService Q) (msgs : list Deferral) :
  outcome (DeferredBuilds s) = Returned (msgs, None) ->
  NoDup (Key <$> concat (parsedDeferrals <$> batches (events (DeferredBuilds s)))) ->
  msgs ≡ₚ concat (parsedDeferrals <$> batches (events (DeferredBuilds s))) /\
  StronglySorted TimeLe msgs.
Proof.
  intros Hout.
  pose proof (DeferredBuilds_returned s msgs Hout) as (n & Hc & Hr & Hev).
  apply readBatches_returned in Hr.
  destruct (getVisibleMessagesCount_events s) as (p & a & Hev').
  rewrite Hev, batches_app, Hev'.
  change (batches [EvGetQueueAttributes p a]) with (@nil (list Message.t)).
  rewrite app_nil_l. set (bs := batches _) in *. clearbody bs. subst msgs.
  intros Hnd. split.
  - by apply (foldl_afterBatch_distinct_keys bs []).
  - apply (foldl_afterBatch_sorted bs []); [constructor|apply no_adjacent_dup_nil].
Qed.

(** X19.  Every request of [Defer], [Resubmit] and [DeferredBuilds] names
    the queue of the service, and none of them changes the queue URL the
    service holds. *)
Theorem requests_go_to_the_queue (s : SQSDeferralService Q) (now : Z)
    (projectKey branch buildID : string) :
  (Forall (toQueue (queueURL s)) (events (Defer now projectKey branch buildID s)) /\
   queueURL (after (Defer now projectKey branch buildID s)) = queueURL s) /\
  (Forall (toQueue (queueURL s)) (events (Resubmit s)) /\
   queueURL (after (Resubmit s)) = queueURL s) /\
  (Forall (toQueue (queueURL s)) (events (DeferredBuilds s)) /\
   queueURL (after (DeferredBuilds s)) = queueURL s).
Proof.
  split; [|split].
  - rewrite Defer_run. cbv zeta. split; [|done].
    constructor; [|constructor]. intros u. cbn. by intros [= <-].
  - rewrite Resubmit_run. cbv zeta.
    set (rp := receiveParams (queueURL s) None).
    set (a := ReceiveMessage rp (sqs s)).
    set (s1 := mkService a.2 (queueURL s) (relay s)).
    assert (forall r, toQueue (queueURL s) (EvReceiveMessage rp r)) as Hrp.
    { intros r u. cbn. by intros [= <-]. }
    destruct a.1 as [err|ms]; cbn [prefixed after events].
    + split; [|done]. constructor; [apply Hrp|]. constructor; [by intros u|constructor].
    + rewrite relayBatch_events, relayBatch_after.
      pose proof (toQueue_readMessages ms [] s1) as Hq.
      pose proof (readMessages_shape ms [] s1) as (_ & _ & _ & Hurl & _).
      split.
      * constructor; [apply Hrp|]. apply Forall_app. split; [done|apply toQueue_EvRelay].
      * by destruct (outcome (readMessages ms [] s1)).
  - destruct (getVisibleMessagesCount_after s) as (Hurl & Hrel & Hev).
    assert (Forall (toQueue (queueURL s)) (events (getVisibleMessagesCount s))) as Hq.
    { rewrite Hev. constructor; [|constructor]. intros u. cbn. by intros [= <-]. }
    destruct (DeferredBuilds_parts s) as [(-> & -> & _)|(n & _ & -> & -> & _)]; [done|].
    destruct (readBatches_events (Z.to_nat (readsFor n)) []
                (after (getVisibleMessagesCount s))) as (Hq' & _ & Hurl' & _).
    rewrite Hurl in Hq'. split; [by apply Forall_app|congruence].
Qed.

End MoreOnDeferredBuildsRuns.

(** ** strconv with values *)

Lemma digitVal_range (c : ascii) (d : Z) : digitVal c = Some d -> 0 <= d <= 9.
Proof.
  unfold digitVal. cbv zeta.
  destruct (Z.leb_spec 48 (Z.of_N (N_of_ascii c)));
    destruct (Z.leb_spec (Z.of_N (N_of_ascii c)) 57); cbn [andb]; intros [= <-]; lia.
Qed.

Lemma parseUintBits_loop_bounds (maxVal : Z) (s : string) :
  forall n, 0 <= n <= maxVal -> 0 <= (parseUintBits_loop maxVal s n).1 <= maxVal.
Proof.
  induction s as [|c s IH]; intros n Hn; cbn [parseUintBits_loop]; [done|].
  destruct (digitVal c) as [d|] eqn:Hd; [|cbn; lia].
  apply digitVal_range in Hd. cbv zeta.
  destruct (Z.ltb_spec maxVal (n * 10 + d)); [cbn; lia|]. apply IH. lia.
Qed.

Lemma strconv_ParseUint_bounds (s : string) (bitSize : Z) :
  0 <= bitSize -> 0 <= (strconv_ParseUint s bitSize).1 <= 2 ^ bitSize - 1.
Proof.
  intros Hb. assert (0 < 2 ^ bitSize) by (apply Z.pow_pos_nonneg; lia).
  unfold strconv_ParseUint. destruct s; [cbn; lia|].
  apply parseUintBits_loop_bounds. lia.
Qed.

Lemma strconv_ParseInt_bounds (s : string) (bitSize : Z) :
  1 <= bitSize ->
  - 2 ^ (bitSize - 1) <= (strconv_ParseInt s bitSize).1 <= 2 ^ (bitSize - 1) - 1.
Proof.
  intros Hb. assert (0 < 2 ^ (bitSize - 1)) by (apply Z.pow_pos_nonneg; lia).
  unfold strconv_ParseInt. destruct s as [|c rest]; [cbn; lia|]. cbv zeta.
  set (digits := if bool_decide (c = "+"%char) || bool_decide (c = "-"%char)
                 then rest else String c rest).
  pose proof (strconv_ParseUint_bounds digits bitSize ltac:(lia)) as Hun.
  destruct (strconv_ParseUint digits bitSize) as [un [[|]|]]; cbn [fst] in Hun;
    [cbn; lia| |];
    (destruct (bool_decide (c = "-"%char)); cbn [negb andb];
     [destruct (Z.ltb_spec (2 ^ (bitSize - 1)) un)
     |destruct (Z.leb_spec (2 ^ (bitSize - 1)) un)]; cbn [fst]; lia).
Qed.

Lemma parseUint_loop_agrees (s : string) :
  forall n,
    parseUint_loop s n =
    match parseUintBits_loop maxUint64 s n with
    | (v, None) => inr v
    | (_, Some kind) => inl kind
    end.
Proof.
  induction s as [|c s IH]; intros n; cbn [parseUint_loop parseUintBits_loop]; [done|].
  destruct (digitVal c); [|done]. cbv zeta.
  destruct (maxUint64 <? n * 10 + z); [done|apply IH].
Qed.

(** The two renderings of [ParseInt] agree at 64 bits. *)
Lemma ParseInt_agrees (s : string) :
  ParseInt s =
  match strconv_ParseInt s 64 with
  | (n, None) => inr n
  | (_, Some kind) => inl kind
  end.
Proof.
  unfold ParseInt, strconv_ParseInt. destruct s as [|c rest]; [done|]. cbv zeta.
  set (digits := if bool_decide (c = "+"%char) || bool_decide (c = "-"%char)
                 then rest else String c rest).
  assert (ParseUint digits =
          match strconv_ParseUint digits 64 with
          | (v, None) => inr v
          | (_, Some kind) => inl kind
          end) as ->.
  { unfold ParseUint, strconv_ParseUint. destruct digits; [done|].
    apply parseUint_loop_agrees. }
  pose proof (strconv_ParseUint_bounds digits 64 ltac:(lia)) as Hun.
  change (2 ^ (64 - 1)) with 9223372036854775808.
  destruct (strconv_ParseUint digits 64) as [un [[|]|]] eqn:Eu; [done| |].
  - (* a range error of ParseUint leaves the largest value *)
    assert (un = 2 ^ 64 - 1) as ->.
    { revert Eu. unfold strconv_ParseUint. destruct digits; [done|].
      generalize 0 at 1. generalize (String a digits). clear.
      intros s. induction s as [|c s IH]; intros n; cbn [parseUintBits_loop]; [done|].
      destruct (digitVal c); [|done]. cbv zeta.
      destruct (2 ^ 64 - 1 <? n * 10 + z); [by intros [= <-]|apply IH]. }
    by destruct (bool_decide (c = "-"%char)).
  - destruct (bool_decide (c = "-"%char)); cbn [negb andb].
    + by destruct (9223372036854775808 <? un).
    + by destruct (9223372036854775808 <=? un).
Qed.

(** ** The storage service *)

Lemma W_bind_eq {A B} (m : W A) (f : A -> W B) :
  mbind (M:=W) f m =
  match m.1 with
  | Returned a => ((f a).1, m.2 ++ (f a).2)
  | Panicked => (Panicked, m.2)
  | Blocked => (Blocked, m.2)
  end.
Proof. reflexivity. Qed.

Lemma numberOf_run (v : gmap string AttributeValue.t) (name : string) :
  numberOf v name =
  match itemNumber v name with
  | Some text => (Returned text, [])
  | None => (Panicked, [])
  end.
Proof.
  unfold numberOf, itemNumber. rewrite W_bind_eq.
  destruct (v !! name) as [a|]; [|done]. cbn. by destruct (AttributeValue.N a).
Qed.

Lemma stringOf_run (v : gmap string AttributeValue.t) (name : string) :
  stringOf v name =
  match itemString v name with
  | Some text => (Returned text, [])
  | None => (Panicked, [])
  end.
Proof.
  unfold stringOf, itemString. rewrite W_bind_eq.
  destruct (v !! name) as [a|]; [|done]. cbn. by destruct (AttributeValue.S a).
Qed.

Lemma logConversion_run (format fn num : string) (err : option NumErr) :
  (logConversion format fn num err).1 = Returned tt /\
  printfs (logConversion format fn num err).2 =
    match err with
    | Some kind => [(format, [LNumError fn num kind])]
    | None => []
    end.
Proof. by destruct err. Qed.

Lemma printfs_app (a b : list StorageEvent) : printfs (a ++ b) = printfs a ++ printfs b.
Proof. apply omap_app. Qed.

Lemma itemLogs_count (v : gmap string AttributeValue.t) :
  length (printfs (itemLogs v)) = badNumbers v.
Proof.
  unfold itemLogs, badNumbers. cbv zeta. rewrite !printfs_app, !length_app.
  destruct (strconv_ParseUint (default "" (itemNumber v "buildElapsedTime")) 64).2;
    destruct (strconv_ParseInt (default "" (itemNumber v "buildResult")) 32).2;
    destruct (strconv_ParseUint (default "" (itemNumber v "buildTime")) 64).2;
    reflexivity.
Qed.

(** One turn of the loop over [resp.Items], for an item with all its
    attributes and for one that lacks an attribute. *)
Lemma convertItems_complete (v : gmap string AttributeValue.t) (b : Build.t)
    (rest : list (gmap string AttributeValue.t)) (builds : list Build.t) :
  buildOf v = Some b ->
  convertItems (v :: rest) builds =
  ((convertItems rest (builds ++ [b])).1,
   itemLogs v ++ (convertItems rest (builds ++ [b])).2).
Proof.
  unfold buildOf, itemLogs. cbn [convertItems]. intros Hb.
  rewrite W_bind_eq, numberOf_run.
  destruct (itemNumber v "buildElapsedTime") as [elapsed|]; [|done].
  cbn [fst snd mbind option_bind default] in Hb |- *.
  rewrite W_bind_eq.
  destruct (logConversion_run "Error converting buildElapsedTime to ordinal value: %v\n"
              "ParseUint" elapsed (strconv_ParseUint elapsed 64).2) as [-> _].
  rewrite W_bind_eq, numberOf_run.
  destruct (itemNumber v "buildResult") as [result|]; [|done].
  cbn [fst snd mbind option_bind default] in Hb |- *.
  rewrite W_bind_eq.
  destruct (logConversion_run "Error converting buildResult to ordinal value: %v\n"
              "ParseInt" result (strconv_ParseInt result 32).2) as [-> _].
  rewrite W_bind_eq, numberOf_run.
  destruct (itemNumber v "buildTime") as [time|]; [|done].
  cbn [fst snd mbind option_bind default] in Hb |- *.
  rewrite W_bind_eq.
  destruct (logConversion_run "Error converting buildTime to ordinal value: %v\n"
              "ParseUint" time (strconv_ParseUint time 64).2) as [-> _].
  rewrite W_bind_eq, stringOf_run.
  destruct (itemString v "buildID") as [buildID|]; [|done].
  cbn [fst snd mbind option_bind] in Hb |- *.
  rewrite W_bind_eq, stringOf_run.
  destruct (itemString v "branch") as [branch|]; [|done].
  cbn [fst snd mbind option_bind] in Hb |- *.
  injection Hb as <-. cbn [app]. unfold id. by rewrite <- !app_assoc.
Qed.

Lemma convertItems_incomplete (v : gmap string AttributeValue.t)
    (rest : list (gmap string AttributeValue.t)) (builds : list Build.t) :
  buildOf v = None -> (convertItems (v :: rest) builds).1 = Panicked.
Proof.
  unfold buildOf. cbn [convertItems]. intros Hb.
  rewrite W_bind_eq, numberOf_run.
  destruct (itemNumber v "buildElapsedTime") as [elapsed|]; [|done].
  cbn [fst snd mbind option_bind] in Hb |- *.
  rewrite W_bind_eq.
  destruct (logConversion_run "Error converting buildElapsedTime to ordinal value: %v\n"
              "ParseUint" elapsed (strconv_ParseUint elapsed 64).2) as [-> _].
  cbn [fst]. rewrite W_bind_eq, numberOf_run.
  destruct (itemNumber v "buildResult") as [result|]; [|done].
  cbn [fst snd mbind option_bind] in Hb |- *.
  rewrite W_bind_eq.
  destruct (logConversion_run "Error converting buildResult to ordinal value: %v\n"
              "ParseInt" result (strconv_ParseInt result 32).2) as [-> _].
  cbn [fst]. rewrite W_bind_eq, numberOf_run.
  destruct (itemNumber v "buildTime") as [time|]; [|done].
  cbn [fst snd mbind option_bind] in Hb |- *.
  rewrite W_bind_eq.
  destruct (logConversion_run "Error converting buildTime to ordinal value: %v\n"
              "ParseUint" time (strconv_ParseUint time 64).2) as [-> _].
  cbn [fst]. rewrite W_bind_eq, stringOf_run.
  destruct (itemString v "buildID") as [buildID|]; [|done].
  cbn [fst snd mbind option_bind] in Hb |- *.
  rewrite W_bind_eq, stringOf_run.
  destruct (itemString v "branch") as [branch|]; [|done].
  done.
Qed.

Lemma convertItems_all (items : list (gmap string AttributeValue.t)) :
  Forall (fun v => is_Some (buildOf v)) items ->
  forall builds,
    (convertItems items builds).1 = Returned (builds ++ omap buildOf items) /\
    length (printfs (convertItems items builds).2) = sum_list (badNumbers <$> items) /\
    length (omap buildOf items) = length items.
Proof.
  induction 1 as [|v items [b Hb] _ IH]; intros builds.
  { cbn. by rewrite app_nil_r. }
  rewrite (convertItems_complete v b items builds Hb).
  destruct (IH (builds ++ [b])) as (Hout & Hlogs & Hlen).
  cbn [fst snd omap list_omap fmap list_fmap sum_list sum_list_with]. rewrite Hb.
  rewrite Hout, printfs_app, length_app, Hlogs, itemLogs_count.
  cbn [length]. rewrite Hlen. by rewrite <- app_assoc.
Qed.

Lemma convertItems_panics (pre post : list (gmap string AttributeValue.t))
    (v : gmap string AttributeValue.t) :
  Forall (fun v => is_Some (buildOf v)) pre ->
  buildOf v = None ->
  forall builds, (convertItems (pre ++ v :: post) builds).1 = Panicked.
Proof.
  intros Hpre Hv. induction Hpre as [|x pre [b Hb] _ IH]; intros builds.
  - by apply convertItems_incomplete.
  - rewrite <- app_comm_cons, (convertItems_complete x b _ builds Hb). apply IH.
Qed.

Lemma convertItems_returned (items : list (gmap string AttributeValue.t)) :
  forall builds out,
    (convertItems items builds).1 = Returned out ->
    Forall (fun v => is_Some (buildOf v)) items.
Proof.
  induction items as [|v items IH]; intros builds out Hout; [constructor|].
  destruct (buildOf v) as [b|] eqn:Hb.
  - rewrite (convertItems_complete v b items builds Hb) in Hout.
    constructor; [by rewrite Hb|]. by eapply IH.
  - by rewrite (convertItems_incomplete v items builds Hb) in Hout.
Qed.

Lemma convertItems_panicked (items : list (gmap string AttributeValue.t)) :
  forall builds,
    (convertItems items builds).1 = Panicked ->
    Exists (fun v => buildOf v = None) items.
Proof.
  induction items as [|v items IH]; intros builds Hp; [done|].
  destruct (buildOf v) as [b|] eqn:Hb; [|by apply Exists_cons_hd].
  rewrite (convertItems_complete v b items builds Hb) in Hp.
  apply Exists_cons_tl. by eapply IH.
Qed.

Section StorageProperties.
Context {D : Type} `{!DynamoDB D}.

(** X20.  When the query is answered and every item has its five
    attributes, [GetBuildsByProject] returns one Build for each item, in the
    order of the answer, and no error.  Numeric attributes that do not
    convert never cost a Build: each costs one log line. *)
Theorem GetBuildsByProject_converts_every_item (project : Project.t) (since limit : Z)
    (d : D) (items : list (gmap string AttributeValue.t)) :
  (Query (buildsQuery project) d).1 = inr items ->
  Forall (fun v => is_Some (buildOf v)) items ->
  (GetBuildsByProject project since limit d).1.1 = Returned (omap buildOf items, None) /\
  length (omap buildOf items) = length items /\
  Build.ID <$> omap buildOf items = omap (fun v => itemString v "buildID") items /\
  length (printfs (GetBuildsByProject project since limit d).1.2)
    = sum_list (badNumbers <$> items).
Proof.
  intros Hq Hitems. unfold GetBuildsByProject. cbv zeta. rewrite Hq. cbn [fst snd].
  destruct (convertItems_all items Hitems []) as (-> & Hlogs & Hlen).
  rewrite app_nil_l. split; [done|]. split; [done|]. split; [|exact Hlogs].
  clear Hlogs Hlen Hq. induction Hitems as [|v items [b Hb] _ IH]; [done|].
  cbn [omap list_omap fmap list_fmap]. rewrite Hb.
  assert (itemString v "buildID" = Some (Build.ID b)) as ->.
  { unfold buildOf in Hb.
    destruct (itemNumber v "buildElapsedTime"); [|done].
    destruct (itemNumber v "buildResult"); [|done].
    destruct (itemNumber v "buildTime"); [|done].
    destruct (itemString v "buildID"); [|done].
    destruct (itemString v "branch"); [|done].
    cbn in Hb. by injection Hb as <-. }
  cbn [fmap list_fmap]. f_equal. exact IH.
Qed.

(** X21.  Whatever the numeric attributes hold, the numbers of the Builds
    returned stay in the range of their Go types: the duration and the time
    in that of [uint64], the result in that of a 32-bit integer. *)
Theorem GetBuildsByProject_bounds (project : Project.t) (since limit : Z) (d : D)
    (builds : list Build.t) (err : option awserror) :
  (GetBuildsByProject project since limit d).1.1 = Returned (builds, err) ->
  Forall (fun b =>
            0 <= Build.Duration b <= 18446744073709551615 /\
            0 <= Build.UnixTime b <= 18446744073709551615 /\
            -2147483648 <= Build.Result b <= 2147483647) builds.
Proof.
  unfold GetBuildsByProject. cbv zeta.
  destruct (Query (buildsQuery project) d).1 as [e|items]; cbn [fst snd].
  { intros [= <- _]. constructor. }
  destruct (convertItems items []).1 as [out| |] eqn:Hout; [|done..].
  intros [= <- _].
  pose proof (convertItems_returned items [] out Hout) as Hall.
  destruct (convertItems_all items Hall []) as (Hout' & _ & _).
  rewrite Hout' in Hout. injection Hout as <-. cbn [app].
  clear Hout'. induction Hall as [|v items [b Hb] _ IH]; [constructor|].
  cbn [omap list_omap]. rewrite Hb. constructor; [|exact IH].
  unfold buildOf in Hb.
  destruct (itemNumber v "buildElapsedTime") as [elapsed|]; [|done].
  destruct (itemNumber v "buildResult") as [result|]; [|done].
  destruct (itemNumber v "buildTime") as [time|]; [|done].
  destruct (itemString v "buildID"); [|done].
  destruct (itemString v "branch"); [|done].
  cbn in Hb. injection Hb as <-. cbn [Build.Duration Build.UnixTime Build.Result].
  pose proof (strconv_ParseUint_bounds elapsed 64 ltac:(lia)).
  pose proof (strconv_ParseUint_bounds time 64 ltac:(lia)).
  pose proof (strconv_ParseInt_bounds result 32 ltac:(lia)).
  change (2 ^ 64 - 1) with 18446744073709551615 in *.
  change (2 ^ (32 - 1)) with 2147483648 in *. lia.
Qed.

(** X22.  How [GetBuildsByProject] fails.  A query that fails is returned
    as it is, with no Build, after one log line, or two for a request
    failure.  An item that lacks one of the five attributes makes the call
    panic, whatever the items before it were. *)
Theorem GetBuildsByProject_failures (project : Project.t) (since limit : Z) (d : D) :
  match (Query (buildsQuery project) d).1 with
  | inl err =>
      (GetBuildsByProject project since limit d).1.1 = Returned ([], Some err) /\
      length (GetBuildsByProject project since limit d).1.2 =
        match err with RequestFailure _ _ _ _ _ => 3%nat | _ => 2%nat end
  | inr items =>
      (GetBuildsByProject project since limit d).1.1 = Panicked <->
      Exists (fun v => buildOf v = None) items
  end.
Proof.
  unfold GetBuildsByProject. cbv zeta.
  destruct (Query (buildsQuery project) d).1 as [err|items]; cbn [fst snd].
  { split; [done|]. by destruct err. }
  split.
  - intros Hp. apply (convertItems_panicked items []).
    by destruct (convertItems items []).1.
  - intros Hex.
    assert (exists pre v post,
               items = pre ++ v :: post /\ Forall (fun v => is_Some (buildOf v)) pre /\
               buildOf v = None) as (pre & v & post & -> & Hpre & Hv).
    { clear -Hex. induction Hex as [v items Hv|x items Hex IH].
      - exists [], v, items. by repeat split.
      - destruct (buildOf x) as [b|] eqn:Hx.
        + destruct IH as (pre & v & post & -> & Hpre & Hv).
          exists (x :: pre), v, post. split; [done|]. split; [|done].
          constructor; [by rewrite Hx|done].
        + exists [], x, items. by repeat split. }
    by rewrite (convertItems_panics pre post v Hpre Hv []).
Qed.

End StorageProperties.

(** ** The further properties on sample data *)

Lemma dedup_keeps_earliest_witness :
  exists d',
    d' ∈ dedup [sample_a1; sample_b3; sample_a5] /\
    Key d' = Key sample_a5 /\ UnixTime d' <= UnixTime sample_a5.
Proof.
  apply (dedup_keeps_earliest [sample_a1; sample_b3; sample_a5] sample_a5).
  - apply (bool_decide_unpack _). vm_compute. reflexivity.
  - apply (bool_decide_unpack _). vm_compute. reflexivity.
Defined.

Lemma dedup_same_key_collapses_witness :
  dedup [sample_a1; sample_a2; sample_a5] = [sample_a1].
Proof.
  apply (dedup_same_key_collapses [sample_a1; sample_a2; sample_a5] "a/master").
  apply (bool_decide_unpack _). vm_compute. reflexivity.
Defined.

Lemma mixed_batch_readable : Forall readable [message_a5; garbled; message_b3].
Proof.
  constructor; [|constructor; [|constructor; [|constructor]]].
  - right. eexists. vm_compute. reflexivity.
  - left. exists "12x", ErrSyntax. split; vm_compute; reflexivity.
  - right. eexists. vm_compute. reflexivity.
Defined.

Lemma mixed_batch_received :
  (ReceiveMessage (receiveParams (queueURL mixedService) None) (sqs mixedService)).1
  = inr [message_a5; garbled; message_b3].
Proof. vm_compute. reflexivity. Defined.

Lemma Resubmit_on_readable_batch_witness :
  outcome (Resubmit mixedService) = Returned tt /\
  relayed (events (Resubmit mixedService)) = [sample_b3; sample_a5].
Proof.
  destruct (Resubmit_on_readable_batch mixedService _ mixed_batch_received
              mixed_batch_readable) as (Hout & Hrel & _).
  rewrite Hout, Hrel. split; vm_compute; reflexivity.
Defined.

Lemma Resubmit_panics_after_deleting_witness :
  breaking bare /\
  outcome (Resubmit brokenService) = Panicked /\
  deleted (events (Resubmit brokenService)) = [deleteParams "q" "h5"].
Proof.
  assert (breaking bare) as Hb by (left; vm_compute; reflexivity).
  split; [exact Hb|].
  destruct (Resubmit_panics_after_deleting brokenService [message_a5] [message_b3] bare)
    as (Hout & _ & Hdel); [vm_compute; reflexivity| |exact Hb|].
  - constructor; [|constructor]. right. eexists. vm_compute. reflexivity.
  - rewrite Hout, Hdel. split; vm_compute; reflexivity.
Defined.

Lemma Resubmit_relays_despite_failed_delete_witness :
  outcome (Resubmit readOnlyService) = Returned tt /\
  relayed (events (Resubmit readOnlyService)) = [sample_a5].
Proof.
  destruct (Resubmit_relays_despite_failed_delete readOnlyService message_a5 sample_a5
              "h5" ReadOnlyQueue.denied) as (Hout & Hev);
    [vm_compute; reflexivity..|vm_compute; discriminate|].
  rewrite Hout, Hev. split; reflexivity.
Defined.

Lemma Resubmit_distinct_keys_witness :
  relayed (events (Resubmit mixedService)) ≡ₚ [sample_a5; sample_b3].
Proof.
  apply (Resubmit_distinct_keys mixedService _ mixed_batch_received mixed_batch_readable).
  - apply (bool_decide_unpack _). vm_compute. reflexivity.
  - apply (bool_decide_unpack _). vm_compute. reflexivity.
Defined.

Lemma Resubmit_relays_a_representative_witness :
  exists d',
    d' ∈ relayed (events (Resubmit mixedService)) /\
    Key d' = Key sample_a5 /\ UnixTime d' <= UnixTime sample_a5.
Proof.
  apply (Resubmit_relays_a_representative mixedService _ sample_a5
           mixed_batch_received mixed_batch_readable).
  - apply (bool_decide_unpack _). vm_compute. reflexivity.
  - apply (bool_decide_unpack _). vm_compute. reflexivity.
Defined.

Lemma Defer_message_round_trip_witness :
  exists p,
    sent (events (Defer 1700000000 "team/lib" "master" "build-7" freshService)) = [p] /\
    SendMessageInput.MessageDeduplicationId p = Some "build-7" /\
    forall handle,
      parsedMessage (Message.mk (SendMessageInput.MessageAttributes p) (Some handle))
      = Some (mkDeferral "team/lib" "master" "build-7" 1700000000, handle).
Proof.
  apply (Defer_message_round_trip freshService 1700000000 "team/lib" "master" "build-7").
  unfold minInt64, maxInt64. lia.
Defined.

Lemma DeferredBuilds_deletes_what_it_reads_witness :
  length (deleted (events (DeferredBuilds backlogService))) = 11%nat.
Proof.
  rewrite (DeferredBuilds_deletes_what_it_reads backlogService [sample_a1; sample_b2]).
  - vm_compute. reflexivity.
  - vm_compute. reflexivity.
Defined.

Lemma DeferredBuilds_error_only_for_count_witness :
  exists n e0,
    outcome (getVisibleMessagesCount flakyService) = Returned (n, Some e0) /\
    Wrapped (Wrapped MemQueue.unavailable
               "%T: Error reading available messages count: %v"
               [AReceiver; AErr MemQueue.unavailable])
      "error retrieving number of visible messages" []
    = Wrapped e0 "error retrieving number of visible messages" [].
Proof.
  apply (DeferredBuilds_error_only_for_count flakyService []
           (Some (Wrapped (Wrapped MemQueue.unavailable
                             "%T: Error reading available messages count: %v"
                             [AReceiver; AErr MemQueue.unavailable])
                    "error retrieving number of visible messages" []))).
  vm_compute. reflexivity.
Defined.

Lemma DeferredBuilds_count_edges_witness :
  outcome (DeferredBuilds freshService) = Returned ([], None) /\
  calls (events (DeferredBuilds freshService)) = [CallGetQueueAttributes].
Proof.
  assert ((GetQueueAttributes
             (GetQueueAttributesInput.mk (Some (queueURL freshService))
                [Some "ApproximateNumberOfMessages"])
             (sqs freshService)).1
          = inr {[ "ApproximateNumberOfMessages" := "0" ]}) as Ha
    by (vm_compute; reflexivity).
  exact (DeferredBuilds_count_edges freshService _ Ha (Z.le_refl 0)).
Defined.

Lemma DeferredBuilds_distinct_keys_witness :
  [sample_b3; sample_a5]
    ≡ₚ concat (parsedDeferrals <$> batches (events (DeferredBuilds mixedService))).
Proof.
  apply (DeferredBuilds_distinct_keys mixedService [sample_b3; sample_a5]).
  - vm_compute. reflexivity.
  - apply (bool_decide_unpack _). vm_compute. reflexivity.
Defined.

Lemma GetBuildsByProject_converts_every_item_witness :
  (GetBuildsByProject (Project.mk "team/lib") 0 10 sampleTable).1.1 =
    Returned ([ Build.mk "build-1" "master" 0 12 1700000000;
                Build.mk "build-2" "develop" 2147483647 0 0 ], None) /\
  length (printfs (GetBuildsByProject (Project.mk "team/lib") 0 10 sampleTable).1.2)
    = 3%nat.
Proof.
  destruct (GetBuildsByProject_converts_every_item (Project.mk "team/lib") 0 10
              sampleTable (MemTable.rows sampleTable)) as (Hout & _ & _ & Hlogs).
  - vm_compute. reflexivity.
  - apply (bool_decide_unpack _). vm_compute. reflexivity.
  - rewrite Hout, Hlogs. split; vm_compute; reflexivity.
Defined.

Lemma GetBuildsByProject_bounds_witness :
  Forall (fun b =>
            0 <= Build.Duration b <= 18446744073709551615 /\
            0 <= Build.UnixTime b <= 18446744073709551615 /\
            -2147483648 <= Build.Result b <= 2147483647)
    [ Build.mk "build-1" "master" 0 12 1700000000;
      Build.mk "build-2" "develop" 2147483647 0 0 ].
Proof.
  apply (GetBuildsByProject_bounds (Project.mk "team/lib") 0 10 sampleTable _ None).
  vm_compute. reflexivity.
Defined.
